(** * The audio playlist player: components and their properties

    The repository holds three React components that each keep a playlist
    and drive one [<audio>] element:

    - [Player]  : [AudioPlayer]     (src/components/AudioPlayer.tsx, first document)
    - [Manager] : [PlaylistManager] (same file, second document)
    - [App]     : [App]             (the unnamed source part, first document)
    - [Utils]   : the helper functions (the unnamed source part, second document)

    A component is embedded as follows.  The values of one render (the
    [useState] cells) form a record [Render].  A handler is a closure of
    the render that created it: it READS the cells of that render and
    WRITES through the setters, whose updates land on the session at the
    next commit.  A handler is therefore a function
    [Render -> Session -> Session]: the first argument is the render it
    closes over, the second the session it updates.  The [<audio>] element
    is reached through a ref, so it is read and written in place, in the
    session.  Numbers that hold seconds or a volume are rationals ([Q]);
    indices and sizes are integers ([Z], with [Z.rem] for JavaScript's [%]). *)

From Stdlib Require Import List String Ascii Strings.Byte Bool Arith ZArith
  QArith Qround Lia Lqa Permutation DecimalString.
Import ListNotations.

Local Open Scope string_scope.
Local Open Scope list_scope.
Local Open Scope Z_scope.

(** ** Browser objects the components use *)

Module Dom.

(** A [File]: its name, its declared MIME type and its bytes. *)
Record File := {
  file_name : string;
  file_type : string;
  file_bytes : list byte
}.

Definition file_size (f : File) : Z := Z.of_nat (List.length (file_bytes f)).

(** A URL string is either an object URL minted by [URL.createObjectURL]
    (unique per call, valid for the page's lifetime) or a [data:] URL as
    [FileReader.readAsDataURL] produces it. *)
Inductive Url :=
| ObjectUrl (handle : nat)
| DataUrl (mime : string) (body : list byte).

Definition bytes_eq_dec (a b : list byte) : {a = b} + {a <> b} :=
  list_eq_dec Byte.byte_eq_dec a b.

Definition Url_eq_dec (a b : Url) : {a = b} + {a <> b}.
Proof.
  decide equality; auto using string_dec, bytes_eq_dec, Nat.eq_dec.
Defined.

Definition Q_eq_dec (a b : Q) : {a = b} + {a <> b}.
Proof. decide equality; auto using Z.eq_dec, Pos.eq_dec. Defined.

(** The page's store of object URLs. *)
Module URL.
Record t := { minted : nat; live : list (nat * File) }.

Definition empty : t := {| minted := 0; live := [] |}.

Definition createObjectURL (f : File) (u : t) : Url * t :=
  (ObjectUrl (minted u),
   {| minted := S (minted u); live := (minted u, f) :: live u |}).

Definition revokeObjectURL (x : Url) (u : t) : t :=
  match x with
  | ObjectUrl h =>
      {| minted := minted u;
         live := filter (fun e => negb (Nat.eqb (fst e) h)) (live u) |}
  | DataUrl _ _ => u
  end.

Definition resolve (h : nat) (u : t) : option File :=
  option_map snd (find (fun e => Nat.eqb (fst e) h) (live u)).
End URL.

Record Blob := { blob_type : string; blob_bytes : list byte }.

(** [fetch(url)] then [response.blob()]: a data URL always yields its
    body; an object URL only while it is live in this page. *)
Definition fetch (x : Url) (u : URL.t) : option Blob :=
  match x with
  | DataUrl m b => Some {| blob_type := m; blob_bytes := b |}
  | ObjectUrl h =>
      option_map (fun f => {| blob_type := file_type f; blob_bytes := file_bytes f |})
                 (URL.resolve h u)
  end.

(** [reader.readAsDataURL(file)] as delivered to [reader.onload]. *)
Definition readAsDataURL (f : File) : Url :=
  DataUrl (file_type f) (file_bytes f).

(** [new File([blob], name, { type })]. *)
Definition newFile (b : Blob) (name type : string) : File :=
  {| file_name := name; file_type := type; file_bytes := blob_bytes b |}.

(** The part of [HTMLAudioElement] the handlers touch. *)
Module Audio.
Record t := {
  src : option Url;
  paused : bool;
  currentTime : Q;
  volume : Q
}.

Definition fresh : t :=
  {| src := None; paused := true; currentTime := 0; volume := 1 |}.

(** The load algorithm: playback stops and the position returns to 0. *)
Definition load (a : t) : t :=
  {| src := src a; paused := true; currentTime := 0; volume := volume a |}.

(** Setting [src] (attribute or property) runs the load algorithm. *)
Definition set_src (u : option Url) (a : t) : t :=
  load {| src := u; paused := paused a; currentTime := currentTime a;
          volume := volume a |}.

(** Removing the [src] attribute does not run the load algorithm. *)
Definition remove_src (a : t) : t :=
  {| src := None; paused := paused a; currentTime := currentTime a;
     volume := volume a |}.

Definition play (a : t) : t :=
  {| src := src a; paused := false; currentTime := currentTime a;
     volume := volume a |}.

Definition pause (a : t) : t :=
  {| src := src a; paused := true; currentTime := currentTime a;
     volume := volume a |}.

Definition set_currentTime (x : Q) (a : t) : t :=
  {| src := src a; paused := paused a; currentTime := x;
     volume := volume a |}.

(** The [volume] setter throws [IndexSizeError] outside [0, 1]:
    [None] stands for the exception. *)
Definition set_volume (v : Q) (a : t) : option t :=
  if Qle_bool 0 v && Qle_bool v 1
  then Some {| src := src a; paused := paused a;
               currentTime := currentTime a; volume := v |}
  else None.
End Audio.

(** [s.startsWith(p)] *)
Definition startsWith (s p : string) : bool := String.prefix p s.

(** [[^/.]+$] from the first character on: the rest of the string holds
    neither a slash nor a dot. *)
Fixpoint no_slash_no_dot (s : string) : bool :=
  match s with
  | EmptyString => true
  | String c r =>
      negb (Ascii.eqb c "/") && negb (Ascii.eqb c ".") && no_slash_no_dot r
  end.

(** [s.replace(/\.[^/.]+$/, '')]: the leftmost dot that is followed, up to
    the end, by one or more characters other than slash and dot is removed
    together with what follows; a string with no such dot is unchanged. *)
Fixpoint replace_extension (s : string) : string :=
  match s with
  | EmptyString => EmptyString
  | String c r =>
      if Ascii.eqb c "." && negb (String.eqb r "") && no_slash_no_dot r
      then EmptyString
      else String c (replace_extension r)
  end.

(** [file.type.startsWith('audio/')], the test every upload handler applies. *)
Definition isAudio (file : File) : bool := startsWith (file_type file) "audio/".

(** [xs[i]]: [None] stands for [undefined]. *)
Definition item {A : Type} (xs : list A) (i : Z) : option A :=
  if i <? 0 then None else nth_error xs (Z.to_nat i).

(** [xs.findIndex(p)], [-1] when no element satisfies [p]. *)
Fixpoint findIndex {A : Type} (p : A -> bool) (xs : list A) : Z :=
  match xs with
  | [] => -1
  | x :: r =>
      if p x then 0
      else let k := findIndex p r in if k <? 0 then -1 else k + 1
  end.

Definition len {A : Type} (xs : list A) : Z := Z.of_nat (List.length xs).

(** The list without its [k]-th element. *)
Definition dropNth {A : Type} (k : nat) (xs : list A) : list A :=
  firstn k xs ++ skipn (S k) xs.

End Dom.

(** [a === b] on two values that are [null]/[undefined] or an object,
    decided on the fields of the objects.  A track object is created once
    (at upload, with the object URL minted for it, or when the stored list
    is parsed) and is never copied or mutated, so the same object always
    gives [true].  Two different objects give [false] as long as they
    differ in a field, as the tracks of a list with distinct ids do; two
    entries of a stored list that agree in every field are two objects for
    the code and one here.  Where a statement below depends on which way
    this comparison goes, it takes the list with distinct ids. *)
Definition same {A : Type} (dec : forall x y : A, {x = y} + {x <> y})
  (a b : option A) : bool :=
  match a, b with
  | Some x, Some y => if dec x y then true else false
  | None, None => true
  | _, _ => false
  end.

(** ** [AudioPlayer] (src/components/AudioPlayer.tsx) *)

Module Player.
Import Dom.

Module AudioFile.
Record t := { id : string; name : string; url : Url; duration : Q }.

Definition eq_dec (a b : t) : {a = b} + {a <> b}.
Proof. decide equality; auto using string_dec, Url_eq_dec, Q_eq_dec. Defined.
End AudioFile.

(** The [useState] cells of one render. *)
Record Render := {
  audioFiles : list AudioFile.t;
  currentTrack : option AudioFile.t;
  isPlaying : bool;
  currentTime : Q;
  duration : Q;
  volume : Q;
  isMuted : bool;
  currentIndex : Z
}.

(** [new Audio(url)] created by an upload, waiting for its
    [loadedmetadata]. *)
Record Probe := { probe_file : File; probe_url : Url }.

(** [view] is the latest render; [bound] is the render whose closures the
    element's [timeupdate]/[loadedmetadata]/[ended] listeners hold: the
    effect that registers them has [[currentTrack]] as its only
    dependency, so it keeps the closures of the render in which
    [currentTrack] last changed. *)
Record Session := {
  view : Render;
  audio : Audio.t;
  bound : Render;
  probes : list Probe;
  urls : URL.t
}.

Definition onView (f : Render -> Render) (s : Session) : Session :=
  {| view := f (view s); audio := audio s; bound := bound s;
     probes := probes s; urls := urls s |}.

Definition onAudio (f : Audio.t -> Audio.t) (s : Session) : Session :=
  {| view := view s; audio := f (audio s); bound := bound s;
     probes := probes s; urls := urls s |}.

Definition setAudioFiles (f : list AudioFile.t -> list AudioFile.t) : Session -> Session :=
  onView (fun r =>
    {| audioFiles := f (audioFiles r); currentTrack := currentTrack r;
       isPlaying := isPlaying r; currentTime := currentTime r;
       duration := duration r; volume := volume r; isMuted := isMuted r;
       currentIndex := currentIndex r |}).

Definition setCurrentTrack (v : option AudioFile.t) : Session -> Session :=
  onView (fun r =>
    {| audioFiles := audioFiles r; currentTrack := v;
       isPlaying := isPlaying r; currentTime := currentTime r;
       duration := duration r; volume := volume r; isMuted := isMuted r;
       currentIndex := currentIndex r |}).

Definition setIsPlaying (v : bool) : Session -> Session :=
  onView (fun r =>
    {| audioFiles := audioFiles r; currentTrack := currentTrack r;
       isPlaying := v; currentTime := currentTime r;
       duration := duration r; volume := volume r; isMuted := isMuted r;
       currentIndex := currentIndex r |}).

Definition setCurrentTime (v : Q) : Session -> Session :=
  onView (fun r =>
    {| audioFiles := audioFiles r; currentTrack := currentTrack r;
       isPlaying := isPlaying r; currentTime := v;
       duration := duration r; volume := volume r; isMuted := isMuted r;
       currentIndex := currentIndex r |}).

Definition setDuration (v : Q) : Session -> Session :=
  onView (fun r =>
    {| audioFiles := audioFiles r; currentTrack := currentTrack r;
       isPlaying := isPlaying r; currentTime := currentTime r;
       duration := v; volume := volume r; isMuted := isMuted r;
       currentIndex := currentIndex r |}).

Definition setVolume (v : Q) : Session -> Session :=
  onView (fun r =>
    {| audioFiles := audioFiles r; currentTrack := currentTrack r;
       isPlaying := isPlaying r; currentTime := currentTime r;
       duration := duration r; volume := v; isMuted := isMuted r;
       currentIndex := currentIndex r |}).

Definition setIsMuted (v : bool) : Session -> Session :=
  onView (fun r =>
    {| audioFiles := audioFiles r; currentTrack := currentTrack r;
       isPlaying := isPlaying r; currentTime := currentTime r;
       duration := duration r; volume := volume r; isMuted := v;
       currentIndex := currentIndex r |}).

Definition setCurrentIndex (v : Z) : Session -> Session :=
  onView (fun r =>
    {| audioFiles := audioFiles r; currentTrack := currentTrack r;
       isPlaying := isPlaying r; currentTime := currentTime r;
       duration := duration r; volume := volume r; isMuted := isMuted r;
       currentIndex := v |}).

(** The first render: the [useState] defaults. *)
Definition initial : Render :=
  {| audioFiles := []; currentTrack := None; isPlaying := false;
     currentTime := 0; duration := 0; volume := 1; isMuted := false;
     currentIndex := 0 |}.

(** The session once the mount effects have run: [saved] is the list
    parsed from [localStorage] ([[]] when the key is absent); the
    listeners are those of the first render. *)
Definition mount (saved : list AudioFile.t) : Session :=
  setAudioFiles (fun _ => saved)
    {| view := initial; audio := Audio.fresh; bound := initial;
       probes := []; urls := URL.empty |}.

(** [currentTrack?.id === trackId] *)
Definition isCurrent (r : Render) (trackId : string) : bool :=
  match currentTrack r with
  | Some t => String.eqb (AudioFile.id t) trackId
  | None => false
  end.

(** [handleFileUpload]: a file whose type starts with [audio/] gets an
    object URL and a probe element; any other file is passed over. *)
Definition handleFileUpload (files : list File) (s : Session) : Session :=
  fold_left
    (fun s file =>
       if isAudio file then
         let (url, u) := URL.createObjectURL file (urls s) in
         {| view := view s; audio := audio s; bound := bound s;
            probes := probes s ++ [{| probe_file := file; probe_url := url |}];
            urls := u |}
       else s)
    files s.

(** The [loadedmetadata] listener of a probe: [stamp] is the text
    [Date.now().toString() + Math.random().toString(36).substr(2, 9)]
    evaluates to, [d] is the probe's [audio.duration]. *)
Definition probeLoaded (p : Probe) (stamp : string) (d : Q) : Session -> Session :=
  let newFile :=
    {| AudioFile.id := stamp;
       AudioFile.name := file_name (probe_file p);
       AudioFile.url := probe_url p;
       AudioFile.duration := d |} in
  setAudioFiles (fun prev => prev ++ [newFile]).

Definition togglePlayPause (r : Render) (s : Session) : Session :=
  match currentTrack r with
  | None => s
  | Some _ =>
      let s := if isPlaying r then onAudio Audio.pause s
               else onAudio Audio.play s in
      setIsPlaying (negb (isPlaying r)) s
  end.

Definition playTrack (r : Render) (track : AudioFile.t) (index : Z)
  (s : Session) : Session :=
  if isCurrent r (AudioFile.id track) then togglePlayPause r s
  else setIsPlaying true (setCurrentIndex index (setCurrentTrack (Some track) s)).

Definition playNext (r : Render) (s : Session) : Session :=
  if len (audioFiles r) =? 0 then s
  else
    let nextIndex := Z.rem (currentIndex r + 1) (len (audioFiles r)) in
    setIsPlaying true
      (setCurrentIndex nextIndex
         (setCurrentTrack (item (audioFiles r) nextIndex) s)).

Definition playPrevious (r : Render) (s : Session) : Session :=
  if len (audioFiles r) =? 0 then s
  else
    let prevIndex :=
      if currentIndex r =? 0 then len (audioFiles r) - 1
      else currentIndex r - 1 in
    setIsPlaying true
      (setCurrentIndex prevIndex
         (setCurrentTrack (item (audioFiles r) prevIndex) s)).

(** [value] is [parseFloat(event.target.value)]. *)
Definition handleSeek (r : Render) (value : Q) (s : Session) : Session :=
  let newTime := ((value / 100) * duration r)%Q in
  setCurrentTime newTime (onAudio (Audio.set_currentTime newTime) s).

(** [setVolume] is called before the element's [volume] is assigned; when
    that assignment throws, [setIsMuted] is not reached. *)
Definition handleVolumeChange (value : Q) (s : Session) : Session :=
  let newVolume := (value / 100)%Q in
  let s := setVolume newVolume s in
  match Audio.set_volume newVolume (audio s) with
  | Some a => setIsMuted (Qeq_bool newVolume 0) (onAudio (fun _ => a) s)
  | None => s
  end.

Definition toggleMute (r : Render) (s : Session) : Session :=
  if isMuted r then
    match Audio.set_volume (volume r) (audio s) with
    | Some a => setIsMuted false (onAudio (fun _ => a) s)
    | None => s
    end
  else
    match Audio.set_volume 0 (audio s) with
    | Some a => setIsMuted true (onAudio (fun _ => a) s)
    | None => s
    end.

Definition deleteTrack (r : Render) (trackId : string) (s : Session) : Session :=
  let s :=
    setAudioFiles
      (filter (fun file => negb (String.eqb (AudioFile.id file) trackId))) s in
  if isCurrent r trackId then setIsPlaying false (setCurrentTrack None s)
  else s.

(** The listeners the effect registers on the element. *)
Definition updateTime (s : Session) : Session :=
  setCurrentTime (Audio.currentTime (audio s)) s.

(** [d] is [audio.duration] as the element reports it with the event. *)
Definition updateDuration (d : Q) (s : Session) : Session := setDuration d s.

Definition handleEnded (r : Render) (s : Session) : Session :=
  playNext r (setIsPlaying false s).

(** What a commit does besides storing the new cells.  The element's
    [src] attribute follows [currentTrack?.url]: a new value is written
    (which loads it), the attribute is removed when there is no current
    track.  The listeners are registered anew when [currentTrack] is not
    the object it was. *)
Definition currentUrl (r : Render) : option Url :=
  option_map AudioFile.url (currentTrack r).

Definition commit (before : Render) (s : Session) : Session :=
  let s :=
    if same Url_eq_dec (currentUrl before) (currentUrl (view s)) then s
    else
      match currentUrl (view s) with
      | Some u => onAudio (Audio.set_src (Some u)) s
      | None => onAudio Audio.remove_src s
      end in
  if same AudioFile.eq_dec (currentTrack before) (currentTrack (view s))
  then s
  else {| view := view s; audio := audio s; bound := view s;
          probes := probes s; urls := urls s |}.

(** The transport controls are rendered under [{currentTrack && (...)}]. *)
Definition controls (r : Render) : bool :=
  match currentTrack r with Some _ => true | None => false end.

(** What can happen to a mounted component.  The element answers
    [audio.play()] and [audio.pause()] with [play] and [pause] events
    whose handlers ([onPlay], [onPause]) set [isPlaying] to the value
    [togglePlayPause] sets itself; they are taken to arrive before the
    next event and are not listed.  [Paused] is the [pause] event of an
    element that stops by itself at the end of its resource. *)
Inductive Event :=
| Upload (files : list File)
| ProbeLoaded (k : nat) (stamp : string) (d : Q)
| ClickRow (index : nat)
| ClickDelete (index : nat)
| ClickPlayPause
| ClickNext
| ClickPrevious
| Seek (value : Q)
| VolumeChange (value : Q)
| ClickMute
| TimeUpdate (t : Q)
| LoadedMetadata (d : Q)
| Ended
| Paused.

Definition dispatch (e : Event) (s : Session) : Session :=
  let r := view s in
  match e with
  | Upload files => handleFileUpload files s
  | ProbeLoaded k stamp d =>
      match nth_error (probes s) k with
      | Some p =>
          probeLoaded p stamp d
            {| view := view s; audio := audio s; bound := bound s;
               probes := dropNth k (probes s); urls := urls s |}
      | None => s
      end
  | ClickRow index =>
      match nth_error (audioFiles r) index with
      | Some file => playTrack r file (Z.of_nat index) s
      | None => s
      end
  | ClickDelete index =>
      match nth_error (audioFiles r) index with
      | Some file => deleteTrack r (AudioFile.id file) s
      | None => s
      end
  | ClickPlayPause => if controls r then togglePlayPause r s else s
  | ClickNext => if controls r then playNext r s else s
  | ClickPrevious => if controls r then playPrevious r s else s
  | Seek value => if controls r then handleSeek r value s else s
  | VolumeChange value => if controls r then handleVolumeChange value s else s
  | ClickMute => if controls r then toggleMute r s else s
  | TimeUpdate t => updateTime (onAudio (Audio.set_currentTime t) s)
  | LoadedMetadata d => updateDuration d s
  | Ended => handleEnded (bound s) s
  | Paused => setIsPlaying false (onAudio Audio.pause s)
  end.

(** One event: its handler runs, then React commits. *)
Definition handle (e : Event) (s : Session) : Session :=
  commit (view s) (dispatch e s).

Definition run (es : list Event) (s : Session) : Session :=
  fold_left (fun s e => handle e s) es s.

Inductive reachable : Session -> Prop :=
| reach_mount saved : reachable (mount saved)
| reach_handle s e : reachable s -> reachable (handle e s).

(** The events that report a probe's metadata. *)
Definition isProbeLoaded (e : Event) : Prop :=
  match e with ProbeLoaded _ _ _ => True | _ => False end.

(** The names on the list followed by the names the pending probes will
    add. *)
Definition ledger (s : Session) : list string :=
  map AudioFile.name (audioFiles (view s))
  ++ map (fun p => file_name (probe_file p)) (probes s).

End Player.

(** ** [PlaylistManager] (src/components/AudioPlayer.tsx, second document) *)

Module Manager.
Import Dom.

Module Track.
Record t := {
  id : string;
  name : string;
  file : File;
  url : Url;
  duration : option Q;   (* [duration?: number] *)
  size : Z
}.
End Track.

(** An entry of the array kept under the key [mp3-player-tracks]: the
    object literal [saveTracksToStorage] resolves for a track.  The store
    holds the text [JSON.stringify] makes of the array and [JSON.parse]
    reads it back; the entries are kept here as the parsed values (a
    [duration] that is [undefined] is left out of the text and is
    [undefined] again after parsing). *)
Module Stored.
Record t := {
  id : string;
  name : string;
  url : Url;
  duration : option Q;
  size : Z
}.
End Stored.

Record Render := {
  tracks : list Track.t;
  currentTrack : option Track.t;
  isPlaying : bool;
  dragOver : bool
}.

(** [storage] is the value of the key [mp3-player-tracks] in
    [localStorage], [None] when the key is absent.  [saves] are the calls
    of [saveTracksToStorage] that wait for their readers, oldest first:
    the function is [async] and none of its callers awaits it. *)
Record Session := {
  view : Render;
  storage : option (list Stored.t);
  urls : URL.t;
  saves : list (list Track.t)
}.

Definition onView (f : Render -> Render) (s : Session) : Session :=
  {| view := f (view s); storage := storage s; urls := urls s;
     saves := saves s |}.

Definition onUrls (f : URL.t -> URL.t) (s : Session) : Session :=
  {| view := view s; storage := storage s; urls := f (urls s);
     saves := saves s |}.

Definition setTracks (v : list Track.t) : Session -> Session :=
  onView (fun r =>
    {| tracks := v; currentTrack := currentTrack r;
       isPlaying := isPlaying r; dragOver := dragOver r |}).

Definition setCurrentTrack (v : option Track.t) : Session -> Session :=
  onView (fun r =>
    {| tracks := tracks r; currentTrack := v;
       isPlaying := isPlaying r; dragOver := dragOver r |}).

Definition setIsPlaying (v : bool) : Session -> Session :=
  onView (fun r =>
    {| tracks := tracks r; currentTrack := currentTrack r;
       isPlaying := v; dragOver := dragOver r |}).

Definition setDragOver (v : bool) : Session -> Session :=
  onView (fun r =>
    {| tracks := tracks r; currentTrack := currentTrack r;
       isPlaying := isPlaying r; dragOver := v |}).

Definition initial : Render :=
  {| tracks := []; currentTrack := None; isPlaying := false;
     dragOver := false |}.

(** One turn of the [for ... of] loop in [loadTracksFromStorage]: the
    stored URL is fetched and turned into a [File] with a new object
    URL; a track whose URL cannot be fetched is passed over (the inner
    [catch]). *)
Definition restore (acc : list Track.t * URL.t) (track : Stored.t)
  : list Track.t * URL.t :=
  let (restoredTracks, u) := acc in
  match fetch (Stored.url track) u with
  | Some blob =>
      let file := newFile blob (Stored.name track) "audio/mpeg" in
      let (url, u) := URL.createObjectURL file u in
      (restoredTracks ++
         [{| Track.id := Stored.id track;
             Track.name := Stored.name track;
             Track.file := file;
             Track.url := url;
             Track.duration := Stored.duration track;
             Track.size := Stored.size track |}],
       u)
  | None => acc
  end.

Definition loadTracksFromStorage (s : Session) : Session :=
  match storage s with
  | Some trackData =>
      let (restoredTracks, u) := fold_left restore trackData ([], urls s) in
      setTracks restoredTracks (onUrls (fun _ => u) s)
  | None => s
  end.

(** What [saveTracksToStorage] resolves for one track once its reader has
    loaded. *)
Definition entry (track : Track.t) : Stored.t :=
  {| Stored.id := Track.id track;
     Stored.name := Track.name track;
     Stored.url := readAsDataURL (Track.file track);
     Stored.duration := Track.duration track;
     Stored.size := Track.size track |}.

(** The call itself: one [FileReader] is started per track and the
    function waits at [await Promise.all]; nothing is written yet. *)
Definition saveTracksToStorage (tracksToSave : list Track.t) (s : Session)
  : Session :=
  {| view := view s; storage := storage s; urls := urls s;
     saves := saves s ++ [tracksToSave] |}.

(** The rest of [saveTracksToStorage], for the [k]-th waiting call, once
    every one of its readers has delivered [onload]: [setItem] is called
    with the text of the array.  [accepted] tells whether the store takes
    the text; when it does not, [setItem] throws (the quota is exceeded),
    the [catch] logs the error and the key keeps its value.  A call one of
    whose readers fails never gets here: the readers have no [onerror], so
    its promise stays pending and the call stays in [saves]. *)
Definition saveTracksToStorage_resume (k : nat) (accepted : bool)
  (s : Session) : Session :=
  match nth_error (saves s) k with
  | Some tracksToSave =>
      let trackData := map entry tracksToSave in
      {| view := view s;
         storage := if accepted then Some trackData else storage s;
         urls := urls s;
         saves := dropNth k (saves s) |}
  | None => s
  end.

(** [handleFileUpload]: every file comes with the text its id template
    [`${Date.now()}-${Math.random().toString(36).substr(2, 9)}`]
    evaluates to. *)
Definition accept (acc : list Track.t * URL.t) (picked : File * string)
  : list Track.t * URL.t :=
  let (newTracks, u) := acc in
  let (file, stamp) := picked in
  if isAudio file then
    let (url, u) := URL.createObjectURL file u in
    (newTracks ++
       [{| Track.id := stamp;
           Track.name := replace_extension (file_name file);
           Track.file := file;
           Track.url := url;
           Track.duration := None;
           Track.size := file_size file |}],
     u)
  else acc.

Definition handleFileUpload (r : Render) (files : list (File * string))
  (s : Session) : Session :=
  let (newTracks, u) := fold_left accept files ([], urls s) in
  let s := onUrls (fun _ => u) s in
  if 0 <? len newTracks then
    let updatedTracks := tracks r ++ newTracks in
    saveTracksToStorage updatedTracks (setTracks updatedTracks s)
  else s.

(** [track] may be [undefined] (an element read past the array). *)
Definition playTrack (track : option Track.t) (s : Session) : Session :=
  setIsPlaying true (setCurrentTrack track s).

(** [currentTrack?.id === trackId] *)
Definition isCurrent (r : Render) (trackId : string) : bool :=
  match currentTrack r with
  | Some t => String.eqb (Track.id t) trackId
  | None => false
  end.

(** The side effects of the [filter] callback in [deleteTrack], for one
    element. *)
Definition discard (r : Render) (trackId : string) (s : Session)
  (track : Track.t) : Session :=
  if String.eqb (Track.id track) trackId then
    let s := onUrls (URL.revokeObjectURL (Track.url track)) s in
    if isCurrent r trackId then setIsPlaying false (setCurrentTrack None s)
    else s
  else s.

Definition deleteTrack (r : Render) (trackId : string) (s : Session)
  : Session :=
  let s := fold_left (discard r trackId) (tracks r) s in
  let updatedTracks :=
    filter (fun track => negb (String.eqb (Track.id track) trackId))
           (tracks r) in
  saveTracksToStorage updatedTracks (setTracks updatedTracks s).


(** [track.id === currentTrack?.id] *)
Definition isTrack (r : Render) (track : Track.t) : bool :=
  isCurrent r (Track.id track).

Definition handleTrackEnd (r : Render) (s : Session) : Session :=
  let currentIndex := findIndex (isTrack r) (tracks r) in
  if negb (currentIndex =? -1) && (currentIndex <? len (tracks r) - 1) then
    playTrack (item (tracks r) (currentIndex + 1)) s
  else setIsPlaying false s.

(** A page (re)load: the object URLs of the old page are dead and its
    waiting saves are gone, the new page mints URLs never seen before and
    starts from the first render; the mount effect then reads the store. *)
Definition reload (s : Session) : Session :=
  loadTracksFromStorage
    {| view := initial; storage := storage s;
       urls := {| URL.minted := URL.minted (urls s); URL.live := [] |};
       saves := [] |}.

(** What of a track outlives the page: everything but the [File] object
    and the object URL, whose bytes are kept. *)
Definition lasting (t : Track.t) : string * string * option Q * Z * list byte :=
  (Track.id t, Track.name t, Track.duration t, Track.size t,
   file_bytes (Track.file t)).

End Manager.

(** ** [App] (unnamed source part, first document) *)

Module App.
Import Dom.

Module Track.
Record t := { id : string; name : string; url : Url; duration : Q }.

Definition eq_dec (a b : t) : {a = b} + {a <> b}.
Proof. decide equality; auto using string_dec, Url_eq_dec, Q_eq_dec. Defined.
End Track.

Record Render := {
  tracks : list Track.t;
  currentTrack : option Track.t;
  isPlaying : bool;
  currentTime : Q;
  duration : Q;
  volume : Q;
  isMuted : bool
}.

Record Probe := { probe_file : File; probe_url : Url }.

(** As in [Player.Session]: [bound] is the render whose closures the
    element's listeners hold (effect dependency [[currentTrack]]). *)
Record Session := {
  view : Render;
  audio : Audio.t;
  bound : Render;
  probes : list Probe;
  urls : URL.t
}.

Definition onView (f : Render -> Render) (s : Session) : Session :=
  {| view := f (view s); audio := audio s; bound := bound s;
     probes := probes s; urls := urls s |}.

Definition onAudio (f : Audio.t -> Audio.t) (s : Session) : Session :=
  {| view := view s; audio := f (audio s); bound := bound s;
     probes := probes s; urls := urls s |}.

Definition setTracks (f : list Track.t -> list Track.t) : Session -> Session :=
  onView (fun r =>
    {| tracks := f (tracks r); currentTrack := currentTrack r;
       isPlaying := isPlaying r; currentTime := currentTime r;
       duration := duration r; volume := volume r; isMuted := isMuted r |}).

Definition setCurrentTrack (v : option Track.t) : Session -> Session :=
  onView (fun r =>
    {| tracks := tracks r; currentTrack := v;
       isPlaying := isPlaying r; currentTime := currentTime r;
       duration := duration r; volume := volume r; isMuted := isMuted r |}).

Definition setIsPlaying (v : bool) : Session -> Session :=
  onView (fun r =>
    {| tracks := tracks r; currentTrack := currentTrack r;
       isPlaying := v; currentTime := currentTime r;
       duration := duration r; volume := volume r; isMuted := isMuted r |}).

Definition setCurrentTime (v : Q) : Session -> Session :=
  onView (fun r =>
    {| tracks := tracks r; currentTrack := currentTrack r;
       isPlaying := isPlaying r; currentTime := v;
       duration := duration r; volume := volume r; isMuted := isMuted r |}).

Definition setDuration (v : Q) : Session -> Session :=
  onView (fun r =>
    {| tracks := tracks r; currentTrack := currentTrack r;
       isPlaying := isPlaying r; currentTime := currentTime r;
       duration := v; volume := volume r; isMuted := isMuted r |}).

Definition setVolume (v : Q) : Session -> Session :=
  onView (fun r =>
    {| tracks := tracks r; currentTrack := currentTrack r;
       isPlaying := isPlaying r; currentTime := currentTime r;
       duration := duration r; volume := v; isMuted := isMuted r |}).

Definition setIsMuted (v : bool) : Session -> Session :=
  onView (fun r =>
    {| tracks := tracks r; currentTrack := currentTrack r;
       isPlaying := isPlaying r; currentTime := currentTime r;
       duration := duration r; volume := volume r; isMuted := v |}).

Definition initial : Render :=
  {| tracks := []; currentTrack := None; isPlaying := false;
     currentTime := 0; duration := 0; volume := 1; isMuted := false |}.

(** After the mount effects: [saved] is the list parsed from
    [localStorage] ([[]] when the key is absent). *)
Definition mount (saved : list Track.t) : Session :=
  setTracks (fun _ => saved)
    {| view := initial; audio := Audio.fresh; bound := initial;
       probes := []; urls := URL.empty |}.

(** [currentTrack?.id === trackId] *)
Definition isCurrent (r : Render) (trackId : string) : bool :=
  match currentTrack r with
  | Some t => String.eqb (Track.id t) trackId
  | None => false
  end.

Definition handleFileUpload (files : list File) (s : Session) : Session :=
  fold_left
    (fun s file =>
       if isAudio file then
         let (url, u) := URL.createObjectURL file (urls s) in
         {| view := view s; audio := audio s; bound := bound s;
            probes := probes s ++ [{| probe_file := file; probe_url := url |}];
            urls := u |}
       else s)
    files s.

(** The [loadedmetadata] listener of a probe: [stamp] is the text
    [Date.now().toString() + Math.random().toString(36)] evaluates to,
    [d] is the probe's [audio.duration]. *)
Definition probeLoaded (p : Probe) (stamp : string) (d : Q) : Session -> Session :=
  let newTrack :=
    {| Track.id := stamp;
       Track.name := replace_extension (file_name (probe_file p));
       Track.url := probe_url p;
       Track.duration := d |} in
  setTracks (fun prev => prev ++ [newTrack]).

(** [handlePlay(track?)]: [track] is [None] when the argument is left out. *)
Definition handlePlay (r : Render) (track : option Track.t) (s : Session)
  : Session :=
  let s :=
    match track with
    | Some t =>
        if same Track.eq_dec track (currentTrack r) then s
        else
          onAudio Audio.load
            (onAudio (Audio.set_src (Some (Track.url t)))
               (setCurrentTrack (Some t) s))
    | None => s
    end in
  if isPlaying r then setIsPlaying false (onAudio Audio.pause s)
  else setIsPlaying true (onAudio Audio.play s).

(** [tracks.findIndex(track => track.id === currentTrack.id)] *)
Definition indexOfCurrent (r : Render) (current : Track.t) : Z :=
  findIndex (fun track => String.eqb (Track.id track) (Track.id current))
            (tracks r).

Definition handlePrevious (r : Render) (s : Session) : Session :=
  match currentTrack r with
  | None => s
  | Some current =>
      let currentIndex := indexOfCurrent r current in
      let previousIndex :=
        if currentIndex >? 0 then currentIndex - 1 else len (tracks r) - 1 in
      match item (tracks r) previousIndex with
      | Some t => handlePlay r (Some t) s
      | None => s
      end
  end.

Definition handleNext (r : Render) (s : Session) : Session :=
  match currentTrack r with
  | None => s
  | Some current =>
      let currentIndex := indexOfCurrent r current in
      let nextIndex :=
        if currentIndex <? len (tracks r) - 1 then currentIndex + 1 else 0 in
      match item (tracks r) nextIndex with
      | Some t => handlePlay r (Some t) s
      | None => s
      end
  end.

Definition handleSeek (value : Q) (s : Session) : Session :=
  let newTime := value in
  setCurrentTime newTime (onAudio (Audio.set_currentTime newTime) s).

(** The element's [volume] is assigned first; when that throws, nothing
    is stored. *)
Definition handleVolumeChange (value : Q) (s : Session) : Session :=
  let newVolume := value in
  match Audio.set_volume newVolume (audio s) with
  | Some a =>
      setIsMuted (Qeq_bool newVolume 0)
        (setVolume newVolume (onAudio (fun _ => a) s))
  | None => s
  end.

(** [volume || 0.5] *)
Definition orHalf (volume : Q) : Q :=
  if Qeq_bool volume 0 then 1 # 2 else volume.

Definition toggleMute (r : Render) (s : Session) : Session :=
  if isMuted r then
    match Audio.set_volume (orHalf (volume r)) (audio s) with
    | Some a => setIsMuted false (onAudio (fun _ => a) s)
    | None => s
    end
  else
    match Audio.set_volume 0 (audio s) with
    | Some a => setIsMuted true (onAudio (fun _ => a) s)
    | None => s
    end.

Definition deleteTrack (r : Render) (trackId : string) (s : Session) : Session :=
  let s :=
    setTracks
      (filter (fun track => negb (String.eqb (Track.id track) trackId))) s in
  if isCurrent r trackId then
    onAudio (Audio.set_src None)
      (onAudio Audio.pause (setIsPlaying false (setCurrentTrack None s)))
  else s.

Definition handleTimeUpdate (s : Session) : Session :=
  setCurrentTime (Audio.currentTime (audio s)) s.

(** [d] is [audio.duration] as the element reports it with the event. *)
Definition handleLoadedMetadata (d : Q) (s : Session) : Session :=
  setDuration d s.

Definition handleEnded (r : Render) (s : Session) : Session := handleNext r s.

(** The listeners are registered anew when [currentTrack] is not the
    object it was. *)
Definition commit (before : Render) (s : Session) : Session :=
  if same Track.eq_dec (currentTrack before) (currentTrack (view s))
  then s
  else {| view := view s; audio := audio s; bound := view s;
          probes := probes s; urls := urls s |}.

(** The transport controls are rendered under [{currentTrack && (...)}];
    the previous and next buttons are disabled on an empty list. *)
Definition controls (r : Render) : bool :=
  match currentTrack r with Some _ => true | None => false end.

Definition skipEnabled (r : Render) : bool :=
  controls r && negb (len (tracks r) =? 0).

Inductive Event :=
| Upload (files : list File)
| ProbeLoaded (k : nat) (stamp : string) (d : Q)
| ClickRow (index : nat)
| ClickDelete (index : nat)
| ClickPlayPause
| ClickNext
| ClickPrevious
| Seek (value : Q)
| VolumeChange (value : Q)
| ClickMute
| TimeUpdate (t : Q)
| LoadedMetadata (d : Q)
| Ended.

Definition dispatch (e : Event) (s : Session) : Session :=
  let r := view s in
  match e with
  | Upload files => handleFileUpload files s
  | ProbeLoaded k stamp d =>
      match nth_error (probes s) k with
      | Some p =>
          probeLoaded p stamp d
            {| view := view s; audio := audio s; bound := bound s;
               probes := dropNth k (probes s); urls := urls s |}
      | None => s
      end
  | ClickRow index =>
      match nth_error (tracks r) index with
      | Some track => handlePlay r (Some track) s
      | None => s
      end
  | ClickDelete index =>
      match nth_error (tracks r) index with
      | Some track => deleteTrack r (Track.id track) s
      | None => s
      end
  | ClickPlayPause => if controls r then handlePlay r None s else s
  | ClickNext => if skipEnabled r then handleNext r s else s
  | ClickPrevious => if skipEnabled r then handlePrevious r s else s
  | Seek value => if controls r then handleSeek value s else s
  | VolumeChange value => if controls r then handleVolumeChange value s else s
  | ClickMute => if controls r then toggleMute r s else s
  | TimeUpdate t => handleTimeUpdate (onAudio (Audio.set_currentTime t) s)
  | LoadedMetadata d => handleLoadedMetadata d s
  | Ended => handleEnded (bound s) s
  end.

Definition handle (e : Event) (s : Session) : Session :=
  commit (view s) (dispatch e s).

Definition run (es : list Event) (s : Session) : Session :=
  fold_left (fun s e => handle e s) es s.

Inductive reachable : Session -> Prop :=
| reach_mount saved : reachable (mount saved)
| reach_handle s e : reachable s -> reachable (handle e s).

(** The events that report a probe's metadata. *)
Definition isProbeLoaded (e : Event) : Prop :=
  match e with ProbeLoaded _ _ _ => True | _ => False end.

(** The names on the list followed by the names the pending probes will
    add. *)
Definition ledger (s : Session) : list string :=
  map Track.name (tracks (view s))
  ++ map (fun p => replace_extension (file_name (probe_file p))) (probes s).

(** The listeners close over the current track of the latest render, and
    nothing plays without a current track. *)
Definition idle_without_track (s : Session) : Prop :=
  currentTrack (bound s) = currentTrack (view s) /\
  (currentTrack (view s) = None -> isPlaying (view s) = false).

End App.

(** ** Utilities (unnamed source part, second document) *)

Module Utils.
Import Dom.

(** [Math.max] and [Math.min] on two numbers. *)
Definition max (a b : Q) : Q := if Qle_bool a b then b else a.

Definition min (a b : Q) : Q := if Qle_bool a b then a else b.

Definition clamp (value min max : Q) : Q :=
  Utils.min (Utils.max value min) max.

(** A string, character by character. *)
Fixpoint mapChars (f : ascii -> ascii) (s : string) : string :=
  match s with
  | EmptyString => EmptyString
  | String c r => String (f c) (mapChars f r)
  end.

Definition between (lo hi : nat) (c : ascii) : bool :=
  (lo <=? nat_of_ascii c)%nat && (nat_of_ascii c <=? hi)%nat.

Definition isUpper (c : ascii) : bool := between 65 90 c.

Definition isLower (c : ascii) : bool := between 97 122 c.

Definition isDigit (c : ascii) : bool := between 48 57 c.

(** [toLowerCase] on the letters [A] to [Z]; the characters outside ASCII
    are left alone.  Both uses below are indifferent to them:
    [sanitizeFileName] has replaced them before, and they neither make nor
    break a [.mp3] ending. *)
Definition lowerChar (c : ascii) : ascii :=
  if isUpper c then ascii_of_nat (nat_of_ascii c + 32) else c.

Definition toLowerCase (s : string) : string := mapChars lowerChar s.

(** The class [[a-z0-9.-]] under the [i] flag. *)
Definition isPlain (c : ascii) : bool :=
  isLower c || isUpper c || isDigit c || Ascii.eqb c "." || Ascii.eqb c "-".

(** [fileName.replace(/[^a-z0-9.-]/gi, '_').toLowerCase()] *)
Definition sanitizeFileName (fileName : string) : string :=
  toLowerCase (mapChars (fun c => if isPlain c then c else "_"%char) fileName).

(** [s.split(sep)] for a one-character separator: never an empty list. *)
Fixpoint split (sep : ascii) (s : string) : list string :=
  match s with
  | EmptyString => [EmptyString]
  | String c r =>
      if Ascii.eqb c sep then EmptyString :: split sep r
      else
        match split sep r with
        | h :: t => String c h :: t
        | [] => [String c EmptyString]
        end
  end.

(** [filePath.split('/').pop()?.split('.')[0] || 'Unknown'] *)
Definition extractFileName (filePath : string) : string :=
  let name := hd "" (split "." (last (split "/" filePath) "")) in
  if String.eqb name "" then "Unknown" else name.

(** [s.endsWith(suffix)] *)
Definition endsWith (s suffix : string) : bool :=
  let n := String.length s in
  let k := String.length suffix in
  (k <=? n)%nat && String.eqb (substring (n - k) k s) suffix.

Definition validTypes : list string :=
  ["audio/mp3"; "audio/mpeg"; "audio/wav"; "audio/ogg"; "audio/m4a"].

(** [xs.includes(x)] on strings. *)
Definition includes (xs : list string) (x : string) : bool :=
  existsb (String.eqb x) xs.

Definition validateAudioFile (file : File) : bool :=
  includes validTypes (file_type file)
  || endsWith (toLowerCase (file_name file)) ".mp3".

Definition isValidPlaylistFile (file : File) : bool :=
  String.eqb (file_type file) "application/json"
  && endsWith (file_name file) ".json".

(** [xs[i] = x] for an index within the array. *)
Fixpoint assign {A : Type} (i : nat) (x : A) (xs : list A) : list A :=
  match xs, i with
  | [], _ => []
  | _ :: r, O => x :: r
  | y :: r, S i' => y :: assign i' x r
  end.

(** [[xs[i], xs[j]] = [xs[j], xs[i]]] for two indices within the array. *)
Definition swap {A : Type} (i j : nat) (xs : list A) : list A :=
  match nth_error xs i, nth_error xs j with
  | Some xi, Some xj => assign j xi (assign i xj xs)
  | _, _ => xs
  end.

(** The loop of [shuffleArray] from index [i] down to 1; [random i] is what
    [Math.random()] returns in the turn with index [i]. *)
Fixpoint shuffleFrom {A : Type} (random : nat -> Q) (i : nat)
  (shuffled : list A) : list A :=
  match i with
  | O => shuffled
  | S i' =>
      let j := Z.to_nat (Qfloor (random i * inject_Z (Z.of_nat i + 1))) in
      shuffleFrom random i' (swap i j shuffled)
  end.

Definition shuffleArray {A : Type} (random : nat -> Q) (array : list A)
  : list A :=
  shuffleFrom random (List.length array - 1) array.

(** The decimal text of an integer, as [String(n)] writes it. *)
Definition decimal (n : Z) : string := NilZero.string_of_int (Z.to_int n).

(** [text.padStart(2, '0')] *)
Definition padStart2 (text : string) : string :=
  match String.length text with
  | O => "00"
  | S O => String "0" text
  | _ => text
  end.

(** [formatTime] for a number of seconds that is neither [NaN] nor
    infinite (for those the function returns ["0:00"]): [a % 60] keeps the
    sign of [a].  The quotient and the remainder are the exact ones.  The
    code computes on doubles: its [%] is exact, its [/] rounds, and the
    rounded quotient has the whole part of the exact one as long as the
    magnitude of [seconds] is below [2^53]; from there on the rounding can
    reach the next whole number, and what is written here is no longer
    what the code returns. *)
Definition formatTime (seconds : Q) : string :=
  let mins := Qfloor (seconds / 60) in
  let rest := (seconds - 60 * inject_Z (Z.quot (Qnum (seconds / 60)) (Zpos (Qden (seconds / 60)))))%Q in
  let secs := Qfloor rest in
  (decimal mins ++ ":" ++ padStart2 (decimal secs))%string.

(** Every character of the string satisfies [p]. *)
Fixpoint everyChar (p : ascii -> bool) (s : string) : bool :=
  match s with
  | EmptyString => true
  | String c r => p c && everyChar p r
  end.

(** The characters [sanitizeFileName] can return: [a-z0-9._-]. *)
Definition isSafe (c : ascii) : bool :=
  isLower c || isDigit c || Ascii.eqb c "." || Ascii.eqb c "-"
  || Ascii.eqb c "_".

(** Neither a slash nor a dot. *)
Definition isNameChar (c : ascii) : bool :=
  negb (Ascii.eqb c "/") && negb (Ascii.eqb c ".").

End Utils.

(** ** Sessions and files used in the examples *)

Module Sample.
Import Dom.

Definition song : File :=
  {| file_name := "song.mp3"; file_type := "audio/mpeg"; file_bytes := [] |}.

Definition notes : File :=
  {| file_name := "notes.txt"; file_type := "text/plain"; file_bytes := [] |}.

Definition tune : File :=
  {| file_name := "tune.ogg"; file_type := "audio/ogg"; file_bytes := [] |}.

(** [AudioPlayer]: a file is uploaded, selected, started and played for
    five seconds. *)
Definition player_playing : Player.Session :=
  Player.run [Player.Upload [song]; Player.ProbeLoaded 0 "t1" 10;
              Player.ClickRow 0; Player.ClickPlayPause; Player.ClickPlayPause;
              Player.TimeUpdate 5] (Player.mount []).

Definition player_song : Player.AudioFile.t :=
  {| Player.AudioFile.id := "t1"; Player.AudioFile.name := "song.mp3";
     Player.AudioFile.url := ObjectUrl 0; Player.AudioFile.duration := 10 |}.

Definition fileA : Player.AudioFile.t :=
  {| Player.AudioFile.id := "a"; Player.AudioFile.name := "A.mp3";
     Player.AudioFile.url := ObjectUrl 0; Player.AudioFile.duration := 10 |}.

Definition fileB : Player.AudioFile.t :=
  {| Player.AudioFile.id := "b"; Player.AudioFile.name := "B.mp3";
     Player.AudioFile.url := ObjectUrl 1; Player.AudioFile.duration := 20 |}.

(** [AudioPlayer] restored with the queue [A, B], after a click on row [B]. *)
Definition player_on_B : Player.Session :=
  Player.run [Player.ClickRow 1] (Player.mount [fileA; fileB]).

(** [App]: a file is uploaded, selected (which starts it) and played for
    five seconds. *)
Definition app_playing : App.Session :=
  App.run [App.Upload [song]; App.ProbeLoaded 0 "t1" 10; App.ClickRow 0;
           App.TimeUpdate 5] (App.mount []).

Definition app_song : App.Track.t :=
  {| App.Track.id := "t1"; App.Track.name := "song";
     App.Track.url := ObjectUrl 0; App.Track.duration := 10 |}.

(** [App] with one track selected and the volume slider moved to 0. *)
Definition app_silenced : App.Session :=
  App.run [App.Upload [song]; App.ProbeLoaded 0 "t1" 10; App.ClickRow 0;
           App.VolumeChange 0] (App.mount []).

Definition appA : App.Track.t :=
  {| App.Track.id := "a"; App.Track.name := "A";
     App.Track.url := ObjectUrl 0; App.Track.duration := 10 |}.

Definition appB : App.Track.t :=
  {| App.Track.id := "b"; App.Track.name := "B";
     App.Track.url := ObjectUrl 1; App.Track.duration := 20 |}.

(** [App] restored with the queue [A, B], after a click on row [B]. *)
Definition app_on_B : App.Session :=
  App.run [App.ClickRow 1] (App.mount [appA; appB]).

Definition trackA : Manager.Track.t :=
  {| Manager.Track.id := "a"; Manager.Track.name := "A";
     Manager.Track.file := song; Manager.Track.url := ObjectUrl 0;
     Manager.Track.duration := None; Manager.Track.size := 0 |}.

Definition trackB : Manager.Track.t :=
  {| Manager.Track.id := "b"; Manager.Track.name := "B";
     Manager.Track.file := song; Manager.Track.url := ObjectUrl 1;
     Manager.Track.duration := None; Manager.Track.size := 0 |}.

(** [PlaylistManager] with the queue [A, B]; [current] is playing. *)
Definition manager_playing (current : Manager.Track.t) : Manager.Session :=
  {| Manager.view :=
       {| Manager.tracks := [trackA; trackB];
          Manager.currentTrack := Some current;
          Manager.isPlaying := true; Manager.dragOver := false |};
     Manager.storage := None;
     Manager.urls := {| URL.minted := 2; URL.live := [(1%nat, song); (0%nat, song)] |};
     Manager.saves := [] |}.

(** [PlaylistManager] in a browser with nothing under the key, before any
    upload. *)
Definition manager_empty : Manager.Session :=
  {| Manager.view := Manager.initial;
     Manager.storage := None;
     Manager.urls := {| URL.minted := 0; URL.live := [] |};
     Manager.saves := [] |}.

(** [PlaylistManager] after the upload of one file, whose save has been
    written. *)
Definition manager_saved : Manager.Session :=
  Manager.saveTracksToStorage_resume 0 true
    (Manager.handleFileUpload (Manager.view manager_empty) [(song, "t1")]
       manager_empty).

End Sample.

(** ** Further values used in the examples *)

Module Cases.
Import Dom.

(** An entry as [App] writes it under the same key: it carries the object
    URL of the page that wrote it. *)
Definition fromApp : Manager.Stored.t :=
  {| Manager.Stored.id := "x"; Manager.Stored.name := "X";
     Manager.Stored.url := ObjectUrl 0; Manager.Stored.duration := None;
     Manager.Stored.size := 0 |}.

End Cases.

(** * Properties *)

Import Dom.

(** ** Lists, indices and the element's volume *)

Lemma same_true {A : Type} (dec : forall x y : A, {x = y} + {x <> y}) a b :
  same dec a b = true -> a = b.
Proof.
  destruct a as [x|], b as [y|]; simpl; try discriminate; auto.
  destruct (dec x y); [congruence | discriminate].
Qed.

Lemma same_refl {A : Type} (dec : forall x y : A, {x = y} + {x <> y}) a :
  same dec a a = true.
Proof. destruct a as [x|]; simpl; auto. destruct (dec x x); congruence. Qed.

Lemma item_of_nat {A : Type} (xs : list A) (i : nat) :
  item xs (Z.of_nat i) = nth_error xs i.
Proof.
  unfold item. destruct (Z.ltb_spec (Z.of_nat i) 0); [lia|].
  now rewrite Nat2Z.id.
Qed.

Lemma item_in_range {A : Type} (xs : list A) i :
  0 <= i < len xs -> exists x, item xs i = Some x.
Proof.
  unfold item, len. intros H. destruct (Z.ltb_spec i 0); [lia|].
  destruct (nth_error xs (Z.to_nat i)) eqn:E; eauto.
  apply nth_error_None in E. lia.
Qed.

Lemma len_pos {A : Type} (xs : list A) : xs <> [] -> 0 < len xs.
Proof. destruct xs; [congruence|]. unfold len. simpl. lia. Qed.

Lemma item_mod {A : Type} (xs : list A) (j : Z) :
  xs <> [] -> exists x, item xs (j mod len xs) = Some x.
Proof.
  intros H. apply item_in_range. apply Z.mod_pos_bound. now apply len_pos.
Qed.

Lemma rem_in_range (i n : Z) : 0 <= i -> 0 < n -> 0 <= Z.rem (i + 1) n < n.
Proof. intros. apply Z.rem_bound_pos; lia. Qed.

Lemma next_mod (i k n : Z) :
  0 < n -> ((i + k) mod n + 1) mod n = (i + (k + 1)) mod n.
Proof. intros H. rewrite Z.add_mod_idemp_l by lia. f_equal. lia. Qed.

Lemma full_turn (i : nat) (n : nat) :
  (i < n)%nat -> (Z.of_nat i + Z.of_nat n) mod Z.of_nat n = Z.of_nat i.
Proof.
  intros H. rewrite <- (Z.mul_1_l (Z.of_nat n)) at 1.
  rewrite Z.mod_add by lia. apply Z.mod_small. lia.
Qed.

Section Keys.
Context {A : Type} (key : A -> string).

(** With pairwise distinct keys, the first element whose key is that of
    the [i]-th element is the [i]-th element. *)
Lemma findIndex_key (p : A -> bool) (xs : list A) :
  forall (i : nat) (c : A),
    (forall x, p x = String.eqb (key x) (key c)) ->
    NoDup (map key xs) ->
    nth_error xs i = Some c ->
    findIndex p xs = Z.of_nat i.
Proof.
  induction xs as [|x xs IH]; intros i c Hp Hnd Hi.
  - destruct i; discriminate.
  - simpl in Hnd. inversion Hnd as [|k ks Hnotin Hnd']; subst.
    destruct i as [|i]; simpl in *.
    + injection Hi as ->. now rewrite Hp, String.eqb_refl.
    + rewrite Hp. destruct (String.eqb_spec (key x) (key c)) as [E|E].
      * exfalso. apply Hnotin. rewrite E. apply in_map.
        eapply nth_error_In; eauto.
      * rewrite (IH i c Hp Hnd' Hi).
        destruct (Z.ltb_spec (Z.of_nat i) 0); lia.
Qed.

Lemma NoDup_key_inj (xs : list A) a b :
  NoDup (map key xs) -> In a xs -> In b xs -> key a = key b -> a = b.
Proof.
  induction xs as [|x xs IH]; simpl; intros Hnd Ha Hb E; [contradiction|].
  inversion Hnd as [|k ks Hnotin Hnd']; subst.
  destruct Ha as [->|Ha], Hb as [->|Hb]; auto.
  - exfalso. apply Hnotin. rewrite E. now apply in_map.
  - exfalso. apply Hnotin. rewrite <- E. now apply in_map.
Qed.

(** Filtering out the key of an element of a list with distinct keys
    removes that element and nothing else. *)
Lemma filter_key_unique (l1 l2 : list A) (t : A) :
  NoDup (map key (l1 ++ t :: l2)) ->
  filter (fun x => negb (String.eqb (key x) (key t))) (l1 ++ t :: l2)
  = l1 ++ l2.
Proof.
  intros Hnd. rewrite filter_app. simpl. rewrite String.eqb_refl. simpl.
  rewrite map_app in Hnd. simpl in Hnd.
  pose proof (NoDup_remove_2 _ _ _ Hnd) as Hnotin.
  f_equal; apply forallb_filter_id; apply forallb_forall; intros x Hx;
    apply negb_true_iff; apply String.eqb_neq; intros E; apply Hnotin;
    rewrite <- E; apply in_or_app; [left|right]; now apply in_map.
Qed.
End Keys.

Lemma Permutation_dropNth {A : Type} (xs : list A) : forall k p,
  nth_error xs k = Some p -> Permutation xs (p :: dropNth k xs).
Proof.
  induction xs as [|x xs IH]; intros [|k] p H; try discriminate; simpl in *.
  - injection H as ->. unfold dropNth. simpl. reflexivity.
  - unfold dropNth in *. simpl.
    rewrite (IH k p H) at 1. apply perm_swap.
Qed.

Lemma set_volume_in_range v a :
  (0 <= v)%Q -> (v <= 1)%Q ->
  Audio.set_volume v a =
    Some {| Audio.src := Audio.src a; Audio.paused := Audio.paused a;
            Audio.currentTime := Audio.currentTime a; Audio.volume := v |}.
Proof.
  intros H0 H1. unfold Audio.set_volume.
  apply Qle_bool_iff in H0. apply Qle_bool_iff in H1. now rewrite H0, H1.
Qed.

Lemma set_volume_out_of_range v a :
  (v < 0)%Q \/ (1 < v)%Q -> Audio.set_volume v a = None.
Proof.
  intros H. unfold Audio.set_volume.
  destruct (Qle_bool 0 v) eqn:E0; auto.
  destruct (Qle_bool v 1) eqn:E1; auto.
  apply Qle_bool_iff in E0. apply Qle_bool_iff in E1.
  destruct H; lra.
Qed.

(** ** [AudioPlayer] *)

Module PlayerFacts.
Import Player.

Lemma player_reachable_run es s : reachable s -> reachable (run es s).
Proof.
  revert s. induction es as [|e es IH]; intros s H; simpl; auto.
  apply IH. now constructor.
Qed.

Lemma player_view_commit before s : view (commit before s) = view s.
Proof.
  unfold commit.
  destruct (same Url_eq_dec _ _); [|destruct (currentUrl (view s))];
    simpl; destruct (same AudioFile.eq_dec _ _); reflexivity.
Qed.


(** [playNext] on a non-empty list. *)
Lemma player_view_playNext r s :
  audioFiles r <> [] ->
  let next := Z.rem (currentIndex r + 1) (len (audioFiles r)) in
  currentTrack (view (playNext r s)) = item (audioFiles r) next /\
  currentIndex (view (playNext r s)) = next /\
  isPlaying (view (playNext r s)) = true /\
  audioFiles (view (playNext r s)) = audioFiles (view s).
Proof.
  intros Hne next. unfold playNext.
  pose proof (len_pos _ Hne).
  destruct (Z.eqb_spec (len (audioFiles r)) 0); [lia|]. now simpl.
Qed.

(** One click on the next button, seen from a session whose index is [j]. *)
Lemma player_click_next s (j : Z) :
  audioFiles (view s) <> [] ->
  currentTrack (view s) <> None ->
  currentIndex (view s) = j mod len (audioFiles (view s)) ->
  let s' := handle ClickNext s in
  audioFiles (view s') = audioFiles (view s) /\
  currentIndex (view s') = (j + 1) mod len (audioFiles (view s)) /\
  currentTrack (view s')
  = item (audioFiles (view s)) ((j + 1) mod len (audioFiles (view s))) /\
  isPlaying (view s') = true.
Proof.
  intros Hne Hc Hi s'. unfold s', handle. rewrite player_view_commit.
  simpl. unfold controls.
  destruct (currentTrack (view s)) eqn:E; [|congruence].
  destruct (player_view_playNext (view s) s Hne) as (Ht & Hx & Hp & Hf).
  pose proof (len_pos _ Hne) as Hpos.
  assert (Z.rem (currentIndex (view s) + 1) (len (audioFiles (view s)))
          = (j + 1) mod len (audioFiles (view s))) as R.
  { rewrite Z.rem_mod_nonneg.
    - rewrite Hi. rewrite Z.add_mod_idemp_l by lia. reflexivity.
    - rewrite Hi. pose proof (Z.mod_pos_bound j _ Hpos). lia.
    - lia. }
  rewrite R in Ht, Hx. auto.
Qed.

Lemma player_iter_next s (i : Z) (k : nat) :
  audioFiles (view s) <> [] ->
  currentTrack (view s) <> None ->
  currentIndex (view s) = i mod len (audioFiles (view s)) ->
  let sk := Nat.iter k (handle ClickNext) s in
  audioFiles (view sk) = audioFiles (view s) /\
  currentIndex (view sk) = (i + Z.of_nat k) mod len (audioFiles (view s)) /\
  (k <> 0%nat ->
     currentTrack (view sk)
     = item (audioFiles (view s))
            ((i + Z.of_nat k) mod len (audioFiles (view s)))).
Proof.
  intros Hne Hc Hi. induction k as [|k IH]; simpl.
  - rewrite Z.add_0_r. repeat split; auto. congruence.
  - destruct IH as (Hf & Hx & Ht).
    set (sk := Nat.iter k (handle ClickNext) s) in *.
    assert (currentTrack (view sk) <> None) as Hck.
    { destruct k as [|k]; [exact Hc|].
      rewrite Ht by discriminate.
      destruct (item_mod (audioFiles (view s)) (i + Z.of_nat (S k)) Hne)
        as [x ->].
      discriminate. }
    destruct (player_click_next sk (i + Z.of_nat k)) as (Hf' & Hx' & Ht' & _).
    + now rewrite Hf.
    + exact Hck.
    + now rewrite Hf.
    + rewrite Hf in *.
      replace (i + Z.of_nat k + 1) with (i + Z.of_nat (S k)) in * by lia.
      repeat split; auto.
Qed.

Lemma player_view_handleFileUpload files : forall s,
  view (handleFileUpload files s) = view s.
Proof.
  unfold handleFileUpload.
  induction files as [|f files IH]; intros s; simpl; auto.
  rewrite IH. destruct (isAudio f); reflexivity.
Qed.




End PlayerFacts.

(** ** [PlaylistManager] *)

Module ManagerFacts.
Import Manager.

Lemma manager_restore_entries ts : forall acc u,
  map lasting (fst (fold_left restore (map entry ts) (acc, u))) =
  map lasting acc ++ map lasting ts.
Proof.
  induction ts as [|t ts IH]; intros acc u; simpl.
  - now rewrite app_nil_r.
  - rewrite IH, map_app. simpl. now rewrite <- app_assoc.
Qed.

Lemma manager_reload_entries s ts :
  storage s = Some (map entry ts) ->
  map lasting (tracks (view (reload s))) = map lasting ts.
Proof.
  intros H. unfold reload, loadTracksFromStorage. simpl. rewrite H.
  match goal with
  | |- context [fold_left restore (map entry ts) (?a, ?u)] =>
      pose proof (manager_restore_entries ts a u) as R;
      destruct (fold_left restore (map entry ts) (a, u)) as [res u']
  end.
  exact R.
Qed.

Lemma dropNth_last {A : Type} (xs : list A) (x : A) :
  dropNth (List.length xs) (xs ++ [x]) = xs.
Proof.
  unfold dropNth. induction xs as [|y xs IH]; simpl; [reflexivity|].
  simpl in IH. now rewrite IH.
Qed.

(** The save a call has just started is the last of the waiting ones. *)
Lemma manager_resume_started ts accepted s k :
  k = List.length (saves s) ->
  saveTracksToStorage_resume k accepted (saveTracksToStorage ts s) =
  {| view := view s;
     storage := if accepted then Some (map entry ts) else storage s;
     urls := urls s;
     saves := saves s |}.
Proof.
  intros ->. unfold saveTracksToStorage_resume, saveTracksToStorage. simpl.
  rewrite nth_error_app2, Nat.sub_diag by lia. simpl.
  now rewrite dropNth_last.
Qed.



Lemma manager_lasting_proj {B : Type}
  (g : string * string * option Q * Z * list byte -> B) xs ys :
  map lasting xs = map lasting ys ->
  map (fun t => g (lasting t)) xs = map (fun t => g (lasting t)) ys.
Proof. intros H. rewrite <- !(map_map lasting g). now rewrite H. Qed.

Lemma manager_findIndex_current r i c :
  NoDup (map Track.id (tracks r)) ->
  nth_error (tracks r) i = Some c ->
  currentTrack r = Some c ->
  findIndex (isTrack r) (tracks r) = Z.of_nat i.
Proof.
  intros Hnd Hi Hc. apply (findIndex_key Track.id) with (c := c); auto.
  intros x. unfold isTrack, isCurrent. rewrite Hc. apply String.eqb_sym.
Qed.

Lemma manager_view_discard_other r trackId ts : forall s,
  isCurrent r trackId = false ->
  view (fold_left (discard r trackId) ts s) = view s.
Proof.
  induction ts as [|t ts IH]; intros s H; simpl; auto.
  rewrite IH by assumption. unfold discard. rewrite H.
  destruct (String.eqb (Track.id t) trackId); reflexivity.
Qed.

End ManagerFacts.

(** ** [App] *)

Module AppFacts.
Import App.

Lemma app_reachable_run es s : reachable s -> reachable (run es s).
Proof.
  revert s. induction es as [|e es IH]; intros s H; simpl; auto.
  apply IH. now constructor.
Qed.

Lemma app_view_commit before s : view (commit before s) = view s.
Proof. unfold commit. destruct (same Track.eq_dec _ _); reflexivity. Qed.


Lemma app_view_handleFileUpload files : forall s,
  view (handleFileUpload files s) = view s.
Proof.
  unfold handleFileUpload.
  induction files as [|f files IH]; intros s; simpl; auto.
  rewrite IH. destruct (isAudio f); reflexivity.
Qed.

Lemma app_bound_handleFileUpload files : forall s,
  bound (handleFileUpload files s) = bound s.
Proof.
  unfold handleFileUpload.
  induction files as [|f files IH]; intros s; simpl; auto.
  rewrite IH. destruct (isAudio f); reflexivity.
Qed.


(** What [handlePlay] leaves in [currentTrack]. *)
Lemma app_currentTrack_handlePlay r track s :
  currentTrack (view (handlePlay r track s)) =
    match track with
    | Some t => if same Track.eq_dec track (currentTrack r)
                then currentTrack (view s) else Some t
    | None => currentTrack (view s)
    end.
Proof.
  unfold handlePlay. destruct track as [t|].
  - destruct (same Track.eq_dec (Some t) (currentTrack r)), (isPlaying r);
      reflexivity.
  - destruct (isPlaying r); reflexivity.
Qed.

Lemma app_tracks_handlePlay r track s :
  tracks (view (handlePlay r track s)) = tracks (view s).
Proof.
  unfold handlePlay. destruct track as [t|].
  - destruct (same Track.eq_dec _ _), (isPlaying r); reflexivity.
  - destruct (isPlaying r); reflexivity.
Qed.

Lemma app_bound_handlePlay r track s : bound (handlePlay r track s) = bound s.
Proof.
  unfold handlePlay. destruct track as [t|].
  - destruct (same Track.eq_dec (Some t) (currentTrack r)), (isPlaying r);
      reflexivity.
  - destruct (isPlaying r); reflexivity.
Qed.

Lemma app_bound_dispatch e s : bound (dispatch e s) = bound s.
Proof.
  destruct e; simpl; auto using app_bound_handleFileUpload.
  - destruct (nth_error (probes s) k); reflexivity.
  - destruct (nth_error (tracks (view s)) index); auto using app_bound_handlePlay.
  - destruct (nth_error (tracks (view s)) index); auto.
    unfold deleteTrack. destruct (isCurrent (view s) (Track.id t)); reflexivity.
  - destruct (controls (view s)); auto using app_bound_handlePlay.
  - destruct (skipEnabled (view s)); auto. unfold handleNext.
    destruct (currentTrack (view s)); auto.
    destruct (item _ _); auto using app_bound_handlePlay.
  - destruct (skipEnabled (view s)); auto. unfold handlePrevious.
    destruct (currentTrack (view s)); auto.
    destruct (item _ _); auto using app_bound_handlePlay.
  - destruct (controls (view s)); auto.
  - destruct (controls (view s)); auto. unfold handleVolumeChange.
    destruct (Audio.set_volume value (audio s)); reflexivity.
  - destruct (controls (view s)); auto. unfold toggleMute.
    destruct (isMuted (view s)); destruct (Audio.set_volume _ _); reflexivity.
  - unfold handleEnded, handleNext.
    destruct (currentTrack (bound s)); auto.
    destruct (item _ _); auto using app_bound_handlePlay.
Qed.

Lemma app_handlePlay_keeps r track s :
  (track = None -> currentTrack (view s) <> None) ->
  (currentTrack r = currentTrack (view s)) ->
  currentTrack (view (handlePlay r track s)) <> None.
Proof.
  intros Hn Hr. rewrite app_currentTrack_handlePlay.
  destruct track as [t|]; auto.
  destruct (same Track.eq_dec (Some t) (currentTrack r)) eqn:E; [|discriminate].
  apply same_true in E. congruence.
Qed.

Lemma app_dispatch_idle e s :
  idle_without_track s ->
  currentTrack (view (dispatch e s)) = None ->
  isPlaying (view (dispatch e s)) = false.
Proof.
  intros [Hb Hi]. destruct e; simpl.
  - rewrite app_view_handleFileUpload. exact Hi.
  - destruct (nth_error (probes s) k); simpl; exact Hi.
  - destruct (nth_error (tracks (view s)) index) as [t|]; auto.
    intros H. exfalso. revert H.
    apply app_handlePlay_keeps; [discriminate | reflexivity].
  - destruct (nth_error (tracks (view s)) index) as [t|]; auto.
    unfold deleteTrack. destruct (isCurrent (view s) (Track.id t)); simpl; auto.
  - destruct (controls (view s)) eqn:C; auto.
    intros H. exfalso. revert H. apply app_handlePlay_keeps; [|reflexivity].
    intros _. unfold controls in C.
    destruct (currentTrack (view s)); discriminate.
  - destruct (skipEnabled (view s)); auto. unfold handleNext.
    destruct (currentTrack (view s)) eqn:C; auto.
    destruct (item _ _); [|rewrite C; discriminate].
    intros H. exfalso. revert H.
    apply app_handlePlay_keeps; [discriminate | auto].
  - destruct (skipEnabled (view s)); auto. unfold handlePrevious.
    destruct (currentTrack (view s)) eqn:C; auto.
    destruct (item _ _); [|rewrite C; discriminate].
    intros H. exfalso. revert H.
    apply app_handlePlay_keeps; [discriminate | auto].
  - destruct (controls (view s)); simpl; auto.
  - destruct (controls (view s)); auto. unfold handleVolumeChange.
    destruct (Audio.set_volume value (audio s)); simpl; auto.
  - destruct (controls (view s)); auto. unfold toggleMute.
    destruct (isMuted (view s)); destruct (Audio.set_volume _ _); simpl; auto.
  - exact Hi.
  - exact Hi.
  - unfold handleEnded, handleNext.
    destruct (currentTrack (bound s)) eqn:C; auto.
    destruct (item _ _); auto.
    intros H. exfalso. revert H.
    apply app_handlePlay_keeps; [discriminate | congruence].
Qed.

Lemma app_handle_idle e s :
  idle_without_track s -> idle_without_track (handle e s).
Proof.
  intros H. pose proof (app_dispatch_idle e s H) as Hd.
  destruct H as [Hb Hi]. unfold handle, commit.
  destruct (same Track.eq_dec _ _) eqn:E.
  - split; auto. rewrite app_bound_dispatch, Hb. now apply same_true in E.
  - split; auto.
Qed.

Lemma app_reachable_idle s : reachable s -> idle_without_track s.
Proof.
  induction 1 as [saved | s e _ IH].
  - split; reflexivity.
  - now apply app_handle_idle.
Qed.

(** One click on the next button when the current track is the [j]-th
    of a list with distinct ids. *)
Lemma app_click_next s (j : nat) c :
  NoDup (map Track.id (tracks (view s))) ->
  nth_error (tracks (view s)) j = Some c ->
  currentTrack (view s) = Some c ->
  let s' := handle ClickNext s in
  tracks (view s') = tracks (view s) /\
  currentTrack (view s')
  = item (tracks (view s)) ((Z.of_nat j + 1) mod len (tracks (view s))).
Proof.
  intros Hnd Hj Hc s'. unfold s', handle. rewrite app_view_commit. simpl.
  assert (j < List.length (tracks (view s)))%nat as Hlt
      by (apply nth_error_Some; congruence).
  assert (tracks (view s) <> []) as Hne
      by (intros E; rewrite E in Hlt; simpl in Hlt; lia).
  pose proof (len_pos _ Hne) as Hpos.
  unfold skipEnabled, controls. rewrite Hc.
  destruct (Z.eqb_spec (len (tracks (view s))) 0); [lia|]. simpl.
  unfold handleNext. rewrite Hc. unfold indexOfCurrent.
  rewrite (findIndex_key Track.id _ (tracks (view s)) j c) by auto.
  assert ((if Z.of_nat j <? len (tracks (view s)) - 1
           then Z.of_nat j + 1 else 0)
          = (Z.of_nat j + 1) mod len (tracks (view s))) as R.
  { unfold len in *.
    destruct (Z.ltb_spec (Z.of_nat j)
                (Z.of_nat (List.length (tracks (view s))) - 1)).
    - rewrite Z.mod_small; lia.
    - replace (Z.of_nat j + 1)
        with (Z.of_nat (List.length (tracks (view s)))) by lia.
      now rewrite Z.mod_same by lia. }
  rewrite R.
  destruct (item_mod (tracks (view s)) (Z.of_nat j + 1) Hne) as [t Et].
  rewrite Et. rewrite app_tracks_handlePlay, app_currentTrack_handlePlay.
  split; auto.
  destruct (same Track.eq_dec (Some t) (currentTrack (view s))) eqn:E; auto.
  apply same_true in E. congruence.
Qed.

Lemma app_iter_next s (i : nat) c (k : nat) :
  NoDup (map Track.id (tracks (view s))) ->
  nth_error (tracks (view s)) i = Some c ->
  currentTrack (view s) = Some c ->
  let sk := Nat.iter k (handle ClickNext) s in
  tracks (view sk) = tracks (view s) /\
  currentTrack (view sk)
  = item (tracks (view s))
         ((Z.of_nat i + Z.of_nat k) mod len (tracks (view s))).
Proof.
  intros Hnd Hi Hc.
  assert (i < List.length (tracks (view s)))%nat as Hlt
      by (apply nth_error_Some; congruence).
  assert (tracks (view s) <> []) as Hne
      by (intros E; rewrite E in Hlt; simpl in Hlt; lia).
  pose proof (len_pos _ Hne) as Hpos.
  induction k as [|k IH]; simpl.
  - split; auto. rewrite Z.add_0_r, Z.mod_small by (unfold len; lia).
    now rewrite item_of_nat, Hi, Hc.
  - destruct IH as (Hf & Ht).
    set (sk := Nat.iter k (handle ClickNext) s) in *.
    set (j := (Z.of_nat i + Z.of_nat k) mod len (tracks (view s))) in *.
    assert (0 <= j < len (tracks (view s))) as Hj
        by (apply Z.mod_pos_bound; lia).
    destruct (item_in_range (tracks (view s)) j Hj) as [x Ex].
    assert (nth_error (tracks (view sk)) (Z.to_nat j) = Some x) as Hnth.
    { rewrite Hf, <- item_of_nat, Z2Nat.id by lia. exact Ex. }
    destruct (app_click_next sk (Z.to_nat j) x) as (Hf' & Ht').
    + now rewrite Hf.
    + exact Hnth.
    + now rewrite Ht.
    + rewrite Hf in *. split; auto. rewrite Ht'.
      rewrite Z2Nat.id by lia. unfold j.
      rewrite next_mod by lia. do 2 f_equal. lia.
Qed.



End AppFacts.

(** * The claims *)

Import Sample PlayerFacts ManagerFacts AppFacts.

(** C1, as the claim states it, fails: after the current track is deleted
    there is no current track, and [currentTime] still holds the position
    last reported (5 here), in [AudioPlayer] and in [App]. *)
Lemma C1_currentTime_is_kept_by_delete :
  ~ (forall s, Player.reachable s ->
       Player.currentTrack (Player.view s) = None ->
       Player.isPlaying (Player.view s) = false /\
       (Player.currentTime (Player.view s) == 0)%Q) /\
  ~ (forall s, App.reachable s ->
       App.currentTrack (App.view s) = None ->
       App.isPlaying (App.view s) = false /\
       (App.currentTime (App.view s) == 0)%Q).
Proof.
  split; intros H.
  - destruct (H (Player.handle (Player.ClickDelete 0) player_playing))
      as [_ H0].
    + apply Player.reach_handle. apply player_reachable_run. constructor.
    + reflexivity.
    + vm_compute in H0. discriminate.
  - destruct (H (App.handle (App.ClickDelete 0) app_playing)) as [_ H0].
    + apply App.reach_handle. apply app_reachable_run. constructor.
    + reflexivity.
    + vm_compute in H0. discriminate.
Qed.

(** C1, amended: in every reachable state of [App], no current track
    implies [isPlaying = false]; and [deleteTrack] of the current track, in
    [App] and in [AudioPlayer], leaves no current track and
    [isPlaying = false] whatever the state was, with [currentTime] as it
    was. *)
Theorem C1_no_track_means_not_playing :
  (forall s, App.reachable s ->
     App.currentTrack (App.view s) = None ->
     App.isPlaying (App.view s) = false) /\
  (forall s trackId,
     App.isCurrent (App.view s) trackId = true ->
     let s' := App.deleteTrack (App.view s) trackId s in
     App.currentTrack (App.view s') = None /\
     App.isPlaying (App.view s') = false /\
     App.currentTime (App.view s') = App.currentTime (App.view s)) /\
  (forall s trackId,
     Player.isCurrent (Player.view s) trackId = true ->
     let s' := Player.deleteTrack (Player.view s) trackId s in
     Player.currentTrack (Player.view s') = None /\
     Player.isPlaying (Player.view s') = false /\
     Player.currentTime (Player.view s') = Player.currentTime (Player.view s)).
Proof.
  split; [|split].
  - intros s H. apply (app_reachable_idle s H).
  - intros s trackId H. unfold App.deleteTrack. rewrite H. repeat split.
  - intros s trackId H. unfold Player.deleteTrack. rewrite H. repeat split.
Qed.

Lemma C1_no_track_means_not_playing_witness :
  App.isPlaying (App.view (App.handle (App.ClickDelete 0) app_playing)) = false /\
  App.currentTime
    (App.view (App.deleteTrack (App.view app_playing) "t1" app_playing)) = 5%Q /\
  Player.isPlaying
    (Player.view (Player.deleteTrack (Player.view player_playing) "t1"
                    player_playing)) = false.
Proof.
  destruct C1_no_track_means_not_playing as (Hreach & Happ & Hplayer).
  split; [|split].
  - apply Hreach.
    + apply App.reach_handle. unfold app_playing.
      apply app_reachable_run. apply App.reach_mount.
    + reflexivity.
  - destruct (Happ app_playing "t1") as (_ & _ & H); [reflexivity|].
    rewrite H. reflexivity.
  - destruct (Hplayer player_playing "t1") as (_ & H & _); [reflexivity|].
    exact H.
Defined.

(** In [AudioPlayer] the index kept in [currentIndex] is not adjusted when
    rows above the current one are deleted; [playPrevious] then reads past
    the end of the list and sets [isPlaying] with no current track. *)
Example Player_previous_reads_past_the_end :
  let s := Player.run
             [Player.Upload [song; song; song];
              Player.ProbeLoaded 0 "t1" 10; Player.ProbeLoaded 0 "t2" 10;
              Player.ProbeLoaded 0 "t3" 10;
              Player.ClickRow 2; Player.ClickDelete 0; Player.ClickDelete 0;
              Player.ClickPrevious] (Player.mount []) in
  Player.reachable s /\
  Player.currentTrack (Player.view s) = None /\
  Player.isPlaying (Player.view s) = true.
Proof.
  split; [|split; reflexivity].
  apply player_reachable_run. constructor.
Qed.

(** C2, as the claim states it, fails.  The store holds the list of one
    track (id [t1]) and [saveTracksToStorage] is called with [A, B].  When
    the store refuses the text ([setItem] throws, the [catch] logs the
    error), and as long as the readers have not delivered, the key keeps
    its value: the next page load restores the track [t1], not [A, B]. *)
Lemma C2_refused_save_is_not_restored :
  let tracksToSave := [trackA; trackB] in
  let started := Manager.saveTracksToStorage tracksToSave manager_saved in
  let refused := Manager.saveTracksToStorage_resume 0 false started in
  let ids s :=
    map Manager.Track.id
      (Manager.tracks (Manager.view (Manager.reload s))) in
  map Manager.Track.id tracksToSave = ["a"; "b"] /\
  ids refused = ["t1"] /\
  ids started = ["t1"] /\
  ids refused <> map Manager.Track.id tracksToSave.
Proof.
  vm_compute. repeat split. intros H. discriminate H.
Qed.

(** C2, amended.  [saveTracksToStorage] writes nothing itself: the save
    waits for its readers, as the last of the waiting saves.  When the
    readers of a waiting save have delivered and [setItem] accepts the
    text, what [loadTracksFromStorage] restores on the next page load has
    the ids, names and durations of the saved tracks, in the same order;
    when [setItem] throws, the key keeps its value. *)
Theorem C2_load_after_written_save_keeps_tracks :
  (forall (tracksToSave : list Manager.Track.t) (s : Manager.Session),
     let started := Manager.saveTracksToStorage tracksToSave s in
     Manager.storage started = Manager.storage s /\
     Manager.view started = Manager.view s /\
     nth_error (Manager.saves started) (List.length (Manager.saves s))
     = Some tracksToSave) /\
  (forall (s : Manager.Session) (k : nat)
          (tracksToSave : list Manager.Track.t),
     nth_error (Manager.saves s) k = Some tracksToSave ->
     let restored :=
       Manager.tracks
         (Manager.view
            (Manager.reload (Manager.saveTracksToStorage_resume k true s))) in
     map Manager.Track.id restored = map Manager.Track.id tracksToSave /\
     map Manager.Track.name restored = map Manager.Track.name tracksToSave /\
     map Manager.Track.duration restored
     = map Manager.Track.duration tracksToSave /\
     Manager.storage (Manager.saveTracksToStorage_resume k false s)
     = Manager.storage s).
Proof.
  split.
  - intros ts s started. unfold started, Manager.saveTracksToStorage. simpl.
    repeat split.
    rewrite nth_error_app2, Nat.sub_diag by lia. reflexivity.
  - intros s k ts Hk restored.
    assert (map Manager.lasting restored = map Manager.lasting ts) as H.
    { apply manager_reload_entries.
      unfold Manager.saveTracksToStorage_resume. rewrite Hk. reflexivity. }
    repeat split.
    + exact (manager_lasting_proj (fun x => fst (fst (fst (fst x)))) _ _ H).
    + exact (manager_lasting_proj (fun x => snd (fst (fst (fst x)))) _ _ H).
    + exact (manager_lasting_proj (fun x => snd (fst (fst x))) _ _ H).
    + unfold Manager.saveTracksToStorage_resume. rewrite Hk. reflexivity.
Qed.

Lemma C2_load_after_written_save_keeps_tracks_witness :
  let started := Manager.saveTracksToStorage [trackA; trackB] manager_saved in
  map Manager.Track.id
    (Manager.tracks
       (Manager.view
          (Manager.reload (Manager.saveTracksToStorage_resume 0 true started))))
  = ["a"; "b"].
Proof.
  intros started.
  assert (nth_error (Manager.saves started) 0 = Some [trackA; trackB]) as H
      by (vm_compute; reflexivity).
  exact (proj1 (proj2 C2_load_after_written_save_keeps_tracks
                  started 0%nat [trackA; trackB] H)).
Defined.

(** C3, as the claim states it, fails in [PlaylistManager]: when the last
    track of the queue [A, B] ends, [handleTrackEnd] keeps [B] as the
    current track and stops; it does not wrap to [A] and play. *)
Lemma C3_manager_stops_after_last_track :
  let s := manager_playing trackB in
  let s' := Manager.handleTrackEnd (Manager.view s) s in
  Manager.currentTrack (Manager.view s') = Some trackB /\
  Manager.isPlaying (Manager.view s') = false /\
  ~ (Manager.currentTrack (Manager.view s') = Some trackA /\
     Manager.isPlaying (Manager.view s') = true).
Proof.
  repeat split. intros [_ H]. discriminate H.
Qed.

(** C3, amended.  In [AudioPlayer], when the listeners hold the list and
    the index of the latest render, [ended] selects the track at index
    [(currentIndex + 1) % length], which exists; after the last index this
    is index 0.  (Whether that track then plays is left out here: see
    [Player_ended_leaves_the_element_paused].)  In [PlaylistManager], with
    distinct ids, [handleTrackEnd] selects and plays the track after the
    current one when there is one, and otherwise keeps the current track
    and sets [isPlaying] to false. *)
Theorem C3_ended_advances :
  (forall s : Player.Session,
     Player.audioFiles (Player.view s) <> [] ->
     0 <= Player.currentIndex (Player.view s) ->
     Player.audioFiles (Player.bound s) = Player.audioFiles (Player.view s) ->
     Player.currentIndex (Player.bound s) = Player.currentIndex (Player.view s) ->
     let s' := Player.handle Player.Ended s in
     let next := Z.rem (Player.currentIndex (Player.view s) + 1)
                       (len (Player.audioFiles (Player.view s))) in
     (exists t, item (Player.audioFiles (Player.view s)) next = Some t /\
                Player.currentTrack (Player.view s') = Some t) /\
     Player.currentIndex (Player.view s') = next /\
     (Player.currentIndex (Player.view s) + 1
        = len (Player.audioFiles (Player.view s)) -> next = 0)) /\
  (forall (s : Manager.Session) (i : nat) (c : Manager.Track.t),
     NoDup (map Manager.Track.id (Manager.tracks (Manager.view s))) ->
     nth_error (Manager.tracks (Manager.view s)) i = Some c ->
     Manager.currentTrack (Manager.view s) = Some c ->
     let s' := Manager.handleTrackEnd (Manager.view s) s in
     (forall t, nth_error (Manager.tracks (Manager.view s)) (S i) = Some t ->
        Manager.currentTrack (Manager.view s') = Some t /\
        Manager.isPlaying (Manager.view s') = true) /\
     (nth_error (Manager.tracks (Manager.view s)) (S i) = None ->
        Manager.currentTrack (Manager.view s') = Some c /\
        Manager.isPlaying (Manager.view s') = false)).
Proof.
  split.
  - intros s Hne Hidx Hfiles Hcur s' next.
    unfold s', Player.handle. rewrite player_view_commit.
    simpl. unfold Player.handleEnded.
    destruct (player_view_playNext (Player.bound s)
                (Player.setIsPlaying false s)) as (Ht & Hi & Hp & _).
    { rewrite Hfiles. exact Hne. }
    rewrite Hfiles, Hcur in Ht, Hi. fold next in Ht, Hi.
    pose proof (len_pos _ Hne) as Hpos.
    repeat split; auto.
    + destruct (item_in_range (Player.audioFiles (Player.view s)) next)
        as [t Et].
      { apply rem_in_range; auto. }
      exists t. split; auto. now rewrite Ht.
    + intros E. unfold next. rewrite E. apply Z.rem_same. lia.
  - intros s i c Hnd Hi Hc s'. unfold s', Manager.handleTrackEnd.
    rewrite (manager_findIndex_current _ i c Hnd Hi Hc).
    split.
    + intros t Ht.
      assert (S i < List.length (Manager.tracks (Manager.view s)))%nat as Hlt
          by (apply nth_error_Some; congruence).
      destruct (Z.eqb_spec (Z.of_nat i) (-1)); [lia|].
      destruct (Z.ltb_spec (Z.of_nat i)
                  (len (Manager.tracks (Manager.view s)) - 1));
        [|unfold len in *; lia].
      simpl. replace (Z.of_nat i + 1) with (Z.of_nat (S i)) by lia.
      rewrite item_of_nat. auto.
    + intros Hn. apply nth_error_None in Hn.
      destruct (Z.ltb_spec (Z.of_nat i)
                  (len (Manager.tracks (Manager.view s)) - 1));
        [unfold len in *; lia|].
      rewrite andb_false_r. simpl. auto.
Qed.

(** In [AudioPlayer] the track selected on [ended] does not play.  With
    [B] of the queue [A, B] selected and started, [ended] selects [A] and
    sets [isPlaying], but [playNext] does not call [play()]: the element
    has loaded the source of [A] and is paused, while [isPlaying] says
    otherwise. *)
Example Player_ended_leaves_the_element_paused :
  let s := Player.run [Player.ClickPlayPause; Player.ClickPlayPause]
                      player_on_B in
  let s' := Player.handle Player.Ended s in
  Player.reachable s /\
  Player.isPlaying (Player.view s) = true /\
  Audio.paused (Player.audio s) = false /\
  Player.currentTrack (Player.view s') = Some fileA /\
  Audio.src (Player.audio s') = Some (Player.AudioFile.url fileA) /\
  Player.isPlaying (Player.view s') = true /\
  Audio.paused (Player.audio s') = true.
Proof.
  split; [|vm_compute; repeat split].
  apply player_reachable_run. unfold player_on_B.
  apply player_reachable_run. constructor.
Qed.

Lemma C3_ended_advances_witness :
  Player.currentTrack (Player.view (Player.handle Player.Ended player_on_B))
    = Some fileA /\
  Manager.currentTrack
    (Manager.view (Manager.handleTrackEnd (Manager.view (manager_playing trackA))
                     (manager_playing trackA))) = Some trackB /\
  Manager.isPlaying
    (Manager.view (Manager.handleTrackEnd (Manager.view (manager_playing trackB))
                     (manager_playing trackB))) = false.
Proof.
  destruct C3_ended_advances as [Hplayer Hmanager].
  split; [|split].
  - destruct (Hplayer player_on_B) as ((t & Ht & Hc) & _);
      [discriminate | vm_compute; discriminate | reflexivity | reflexivity |].
    rewrite Hc, <- Ht. reflexivity.
  - destruct (Hmanager (manager_playing trackA) 0%nat trackA) as [H _].
    + repeat constructor; simpl; intuition discriminate.
    + reflexivity.
    + reflexivity.
    + apply (H trackB). reflexivity.
  - destruct (Hmanager (manager_playing trackB) 1%nat trackB) as [_ H].
    + repeat constructor; simpl; intuition discriminate.
    + reflexivity.
    + reflexivity.
    + apply H. reflexivity.
Defined.

(** C4: a click on the row of the track that is current (same id; in [App],
    where rows are compared as objects, a row of a list with distinct ids
    that holds the current track) while playing does what the play/pause
    button does: [isPlaying] becomes false, the element is paused and
    otherwise untouched (no load, same position), and [currentTime] and
    [currentTrack] keep their values. *)
Theorem C4_selecting_the_current_track_pauses :
  (forall (s : Player.Session) (i : nat) (track c : Player.AudioFile.t),
     nth_error (Player.audioFiles (Player.view s)) i = Some track ->
     Player.currentTrack (Player.view s) = Some c ->
     Player.AudioFile.id track = Player.AudioFile.id c ->
     Player.isPlaying (Player.view s) = true ->
     let s' := Player.handle (Player.ClickRow i) s in
     s' = Player.handle Player.ClickPlayPause s /\
     Player.isPlaying (Player.view s') = false /\
     Player.audio s' = Audio.pause (Player.audio s) /\
     Player.currentTime (Player.view s') = Player.currentTime (Player.view s) /\
     Player.currentTrack (Player.view s') = Player.currentTrack (Player.view s)) /\
  (forall (s : App.Session) (i : nat) (track c : App.Track.t),
     NoDup (map App.Track.id (App.tracks (App.view s))) ->
     In c (App.tracks (App.view s)) ->
     nth_error (App.tracks (App.view s)) i = Some track ->
     App.currentTrack (App.view s) = Some c ->
     App.Track.id track = App.Track.id c ->
     App.isPlaying (App.view s) = true ->
     let s' := App.handle (App.ClickRow i) s in
     s' = App.handle App.ClickPlayPause s /\
     App.isPlaying (App.view s') = false /\
     App.audio s' = Audio.pause (App.audio s) /\
     App.currentTime (App.view s') = App.currentTime (App.view s) /\
     App.currentTrack (App.view s') = App.currentTrack (App.view s)).
Proof.
  split.
  - intros s i track c Hi Hc Hid Hp s'. unfold s', Player.handle. simpl.
    rewrite Hi. unfold Player.playTrack, Player.isCurrent, Player.controls.
    rewrite Hc, Hid, String.eqb_refl.
    unfold Player.togglePlayPause. rewrite Hc, Hp. simpl.
    unfold Player.commit. simpl. unfold Player.currentUrl. simpl.
    rewrite !same_refl. simpl. rewrite Hc. repeat split.
  - intros s i track c Hnd Hin Hi Hc Hid Hp s'.
    assert (track = c) as ->.
    { apply (NoDup_key_inj App.Track.id (App.tracks (App.view s))); auto.
      eapply nth_error_In; eauto. }
    unfold s', App.handle. simpl. rewrite Hi. unfold App.controls.
    rewrite Hc. unfold App.handlePlay. rewrite Hc, Hp, same_refl.
    unfold App.commit. simpl. rewrite Hc, same_refl. repeat split.
    simpl. exact Hc.
Qed.

Lemma C4_selecting_the_current_track_pauses_witness :
  Player.audio (Player.handle (Player.ClickRow 0) player_playing)
    = Audio.pause (Player.audio player_playing) /\
  App.handle (App.ClickRow 0) app_playing
    = App.handle App.ClickPlayPause app_playing.
Proof.
  destruct C4_selecting_the_current_track_pauses as [Hplayer Happ].
  split.
  - assert (nth_error (Player.audioFiles (Player.view player_playing)) 0
            = Some player_song) as H1 by (vm_compute; reflexivity).
    assert (Player.currentTrack (Player.view player_playing) = Some player_song)
      as H2 by (vm_compute; reflexivity).
    assert (Player.isPlaying (Player.view player_playing) = true)
      as H3 by (vm_compute; reflexivity).
    exact (proj1 (proj2 (proj2
             (Hplayer player_playing 0%nat player_song player_song
                H1 H2 eq_refl H3)))).
  - assert (App.tracks (App.view app_playing) = [app_song])
      as H0 by (vm_compute; reflexivity).
    assert (nth_error (App.tracks (App.view app_playing)) 0 = Some app_song)
      as H1 by (vm_compute; reflexivity).
    assert (App.currentTrack (App.view app_playing) = Some app_song)
      as H2 by (vm_compute; reflexivity).
    assert (App.isPlaying (App.view app_playing) = true)
      as H3 by (vm_compute; reflexivity).
    refine (proj1 (Happ app_playing 0%nat app_song app_song _ _
                     H1 H2 eq_refl H3)).
    + rewrite H0. repeat constructor. simpl. tauto.
    + rewrite H0. simpl. auto.
Defined.

(** C5, as the claim states it, fails: [handleVolumeChange] stores what the
    slider reports.  For the values that stand for -5 and 5 the stored
    volume of [AudioPlayer] is -5 and 5, not 0 and 1. *)
Lemma C5_volume_is_not_clamped :
  ~ (Player.volume
       (Player.view (Player.handleVolumeChange (-500) (Player.mount []))) == 0)%Q /\
  ~ (Player.volume
       (Player.view (Player.handleVolumeChange 500 (Player.mount []))) == 1)%Q /\
  (Player.volume
     (Player.view (Player.handleVolumeChange (-500) (Player.mount []))) == -5)%Q /\
  (Player.volume
     (Player.view (Player.handleVolumeChange 500 (Player.mount []))) == 5)%Q.
Proof.
  repeat split; vm_compute; intros H; discriminate H.
Qed.

(** C5, amended: for a slider value within the slider's range ([0, 100]
    in [AudioPlayer], [0, 1] in [App]) the stored volume is that value
    ([value / 100] in [AudioPlayer]), it lies in [0, 1], the element gets
    the same volume, and [isMuted] becomes true exactly when the volume
    is 0 and false when it is greater. *)
Theorem C5_volume_within_the_slider_range :
  (forall (value : Q) (s : Player.Session),
     (0 <= value)%Q -> (value <= 100)%Q ->
     let s' := Player.handleVolumeChange value s in
     let v := Player.volume (Player.view s') in
     v = (value / 100)%Q /\
     (0 <= v)%Q /\ (v <= 1)%Q /\
     Audio.volume (Player.audio s') = v /\
     (Player.isMuted (Player.view s') = true <-> (v == 0)%Q) /\
     ((0 < v)%Q -> Player.isMuted (Player.view s') = false)) /\
  (forall (value : Q) (s : App.Session),
     (0 <= value)%Q -> (value <= 1)%Q ->
     let s' := App.handleVolumeChange value s in
     let v := App.volume (App.view s') in
     v = value /\
     Audio.volume (App.audio s') = v /\
     (App.isMuted (App.view s') = true <-> (v == 0)%Q) /\
     ((0 < v)%Q -> App.isMuted (App.view s') = false)).
Proof.
  split.
  - intros value s H0 H1 s' v.
    assert (0 <= value / 100)%Q as Hlo.
    { apply Qle_shift_div_l; lra. }
    assert (value / 100 <= 1)%Q as Hhi.
    { apply Qle_shift_div_r; lra. }
    unfold v, s', Player.handleVolumeChange.
    rewrite (set_volume_in_range _ _ Hlo Hhi). simpl.
    repeat split; auto.
    + apply Qeq_bool_iff.
    + apply Qeq_bool_iff.
    + intros Hpos. destruct (Qeq_bool (value / 100) 0) eqn:E; auto.
      apply Qeq_bool_iff in E. lra.
  - intros value s H0 H1 s' v.
    unfold v, s', App.handleVolumeChange.
    rewrite (set_volume_in_range _ _ H0 H1). simpl.
    repeat split; auto.
    + apply Qeq_bool_iff.
    + apply Qeq_bool_iff.
    + intros Hpos. destruct (Qeq_bool value 0) eqn:E; auto.
      apply Qeq_bool_iff in E. lra.
Qed.

Lemma C5_volume_within_the_slider_range_witness :
  Player.volume (Player.view (Player.handleVolumeChange 50 player_playing))
    = (50 / 100)%Q /\
  Player.isMuted (Player.view (Player.handleVolumeChange 0 player_playing)) = true /\
  App.volume (App.view (App.handleVolumeChange (1 # 2) app_playing)) = (1 # 2)%Q.
Proof.
  destruct C5_volume_within_the_slider_range as [Hplayer Happ].
  split; [|split].
  - refine (proj1 (Hplayer 50%Q player_playing _ _)); vm_compute; discriminate.
  - refine (proj2 (proj1 (proj2 (proj2 (proj2 (proj2
             (Hplayer 0%Q player_playing _ _)))))) _);
      vm_compute; try discriminate. reflexivity.
  - refine (proj1 (Happ (1 # 2)%Q app_playing _ _)); vm_compute; discriminate.
Defined.

(** C6, as the claim states it, fails: with one track in the queue, next
    does not restart it.  Five seconds into the track, a click on next in
    [AudioPlayer] leaves the element as it is, at 5 seconds; in [App] it
    does what the play/pause button does: the element is paused, at 5
    seconds. *)
Lemma C6_single_track_is_not_restarted :
  (let s' := Player.handle Player.ClickNext player_playing in
   Player.audioFiles (Player.view player_playing) = [player_song] /\
   Player.currentTrack (Player.view s') = Some player_song /\
   Player.audio s' = Player.audio player_playing /\
   (Audio.currentTime (Player.audio s') == 5)%Q /\
   ~ (Audio.currentTime (Player.audio s') == 0)%Q) /\
  (let s' := App.handle App.ClickNext app_playing in
   App.tracks (App.view app_playing) = [app_song] /\
   App.currentTrack (App.view s') = Some app_song /\
   s' = App.handle App.ClickPlayPause app_playing /\
   Audio.paused (App.audio s') = true /\
   (Audio.currentTime (App.audio s') == 5)%Q /\
   ~ (Audio.currentTime (App.audio s') == 0)%Q).
Proof.
  vm_compute. repeat split; intros H; discriminate H.
Qed.

(** C6, amended: with the current track at index [i] of a non-empty queue,
    a click on next moves to index [(i + 1) mod N] (index 0 after the
    last; the same track when [N = 1]) and, in [AudioPlayer], sets
    [isPlaying]; [N] clicks return to the track (and index) they started
    from.  With [N = 1] the track is not restarted: [AudioPlayer] leaves
    the element as it is, [App] does what its play/pause button does.  In
    [App] the index is found by id, so its list is taken with distinct
    ids. *)
Theorem C6_next_cycles_through_the_queue :
  (forall (s : Player.Session) (i : nat) (c : Player.AudioFile.t),
     nth_error (Player.audioFiles (Player.view s)) i = Some c ->
     Player.currentIndex (Player.view s) = Z.of_nat i ->
     Player.currentTrack (Player.view s) = Some c ->
     let queue := Player.audioFiles (Player.view s) in
     let next := Player.handle Player.ClickNext in
     Player.currentIndex (Player.view (next s))
       = (Z.of_nat i + 1) mod len queue /\
     Player.currentTrack (Player.view (next s))
       = item queue ((Z.of_nat i + 1) mod len queue) /\
     Player.isPlaying (Player.view (next s)) = true /\
     Player.currentIndex (Player.view (Nat.iter (List.length queue) next s))
       = Z.of_nat i /\
     Player.currentTrack (Player.view (Nat.iter (List.length queue) next s))
       = Some c /\
     (queue = [c] -> Player.audio (next s) = Player.audio s)) /\
  (forall (s : App.Session) (i : nat) (c : App.Track.t),
     NoDup (map App.Track.id (App.tracks (App.view s))) ->
     nth_error (App.tracks (App.view s)) i = Some c ->
     App.currentTrack (App.view s) = Some c ->
     let queue := App.tracks (App.view s) in
     let next := App.handle App.ClickNext in
     App.currentTrack (App.view (next s))
       = item queue ((Z.of_nat i + 1) mod len queue) /\
     App.currentTrack (App.view (Nat.iter (List.length queue) next s))
       = Some c /\
     (queue = [c] -> next s = App.handle App.ClickPlayPause s)).
Proof.
  split.
  - intros s i c Hi Hx Hc queue next.
    assert (i < List.length queue)%nat as Hlt
        by (apply nth_error_Some; unfold queue; congruence).
    assert (queue <> []) as Hne
        by (intros E; rewrite E in Hlt; simpl in Hlt; lia).
    pose proof (len_pos _ Hne) as Hpos.
    assert (Player.currentIndex (Player.view s) = Z.of_nat i mod len queue)
      as Hm by (rewrite Z.mod_small; unfold len; lia).
    assert (Player.currentTrack (Player.view s) <> None) as Hsome by congruence.
    destruct (player_click_next s (Z.of_nat i) Hne Hsome Hm)
      as (_ & H1 & H2 & H3).
    destruct (player_iter_next s (Z.of_nat i) (List.length queue) Hne Hsome Hm)
      as (_ & H4 & H5).
    fold queue in H1, H2, H4, H5. fold next in H1, H2, H3, H4, H5.
    unfold len in H4, H5. rewrite (full_turn i _ Hlt) in H4, H5.
    repeat split; auto.
    + rewrite H5 by lia. rewrite item_of_nat. exact Hi.
    + intros E. unfold queue in E. unfold next, Player.handle. simpl.
      unfold Player.controls. rewrite Hc.
      rewrite E in Hi. destruct i as [|i]; [|destruct i; discriminate Hi].
      unfold Player.playNext. rewrite E, Hx. simpl.
      unfold Player.commit, Player.currentUrl. simpl. rewrite Hc.
      rewrite !same_refl. reflexivity.
  - intros s i c Hnd Hi Hc queue next.
    assert (i < List.length queue)%nat as Hlt
        by (apply nth_error_Some; unfold queue; congruence).
    destruct (app_click_next s i c Hnd Hi Hc) as (_ & H1).
    destruct (app_iter_next s i c (List.length queue) Hnd Hi Hc) as (_ & H2).
    fold queue in H1, H2. fold next in H1, H2.
    unfold len in H2. rewrite (full_turn i _ Hlt) in H2.
    split; [|split]; auto.
    + rewrite H2, item_of_nat. exact Hi.
    + intros E. unfold queue in E. unfold next, App.handle. simpl.
      unfold App.skipEnabled, App.controls, App.handleNext,
        App.indexOfCurrent, App.handlePlay.
      rewrite Hc, E. simpl. rewrite String.eqb_refl. simpl.
      destruct (App.Track.eq_dec c c); [reflexivity|congruence].
Qed.

Lemma C6_next_cycles_through_the_queue_witness :
  Player.currentTrack
    (Player.view (Nat.iter 2 (Player.handle Player.ClickNext) player_on_B))
    = Some fileB /\
  Player.currentTrack
    (Player.view (Nat.iter 1 (Player.handle Player.ClickNext) player_playing))
    = Some player_song /\
  App.currentTrack
    (App.view (Nat.iter 2 (App.handle App.ClickNext) app_on_B)) = Some appB.
Proof.
  destruct C6_next_cycles_through_the_queue as [Hplayer Happ].
  split; [|split].
  - assert (nth_error (Player.audioFiles (Player.view player_on_B)) 1
            = Some fileB) as H1 by (vm_compute; reflexivity).
    assert (Player.currentIndex (Player.view player_on_B) = Z.of_nat 1)
      as H2 by (vm_compute; reflexivity).
    assert (Player.currentTrack (Player.view player_on_B) = Some fileB)
      as H3 by (vm_compute; reflexivity).
    exact (proj1 (proj2 (proj2 (proj2 (proj2
             (Hplayer player_on_B 1%nat fileB H1 H2 H3)))))).
  - assert (nth_error (Player.audioFiles (Player.view player_playing)) 0
            = Some player_song) as H1 by (vm_compute; reflexivity).
    assert (Player.currentIndex (Player.view player_playing) = Z.of_nat 0)
      as H2 by (vm_compute; reflexivity).
    assert (Player.currentTrack (Player.view player_playing) = Some player_song)
      as H3 by (vm_compute; reflexivity).
    exact (proj1 (proj2 (proj2 (proj2 (proj2
             (Hplayer player_playing 0%nat player_song H1 H2 H3)))))).
  - assert (App.tracks (App.view app_on_B) = [appA; appB])
      as H0 by (vm_compute; reflexivity).
    assert (nth_error (App.tracks (App.view app_on_B)) 1 = Some appB)
      as H1 by (vm_compute; reflexivity).
    assert (App.currentTrack (App.view app_on_B) = Some appB)
      as H3 by (vm_compute; reflexivity).
    refine (proj1 (proj2 (Happ app_on_B 1%nat appB _ H1 H3))).
    rewrite H0. repeat constructor; simpl; intuition discriminate.
Defined.

(** C7, as the claim states it, fails in [App]: with the stored volume 0
    and the player muted, [toggleMute] sets the element's volume to 1/2,
    not to the stored value. *)
Lemma C7_app_unmutes_to_one_half :
  App.isMuted (App.view app_silenced) = true /\
  (App.volume (App.view app_silenced) == 0)%Q /\
  (Audio.volume (App.audio (App.toggleMute (App.view app_silenced) app_silenced))
     == 1 # 2)%Q /\
  ~ (Audio.volume (App.audio (App.toggleMute (App.view app_silenced) app_silenced))
     == App.volume (App.view app_silenced))%Q.
Proof.
  repeat split. vm_compute. intros H. discriminate H.
Qed.

(** C7, amended: for a stored volume in [0, 1], [toggleMute] never changes
    the stored volume and flips [isMuted]; while unmuted it sets the
    element's volume to 0; while muted it sets the element's volume to the
    stored value, except that [App] sets it to 1/2 when the stored value
    is 0. *)
Theorem C7_mute_overrides_the_output_only :
  (forall s : Player.Session,
     (0 <= Player.volume (Player.view s))%Q ->
     (Player.volume (Player.view s) <= 1)%Q ->
     let s' := Player.toggleMute (Player.view s) s in
     Player.volume (Player.view s') = Player.volume (Player.view s) /\
     Player.isMuted (Player.view s') = negb (Player.isMuted (Player.view s)) /\
     (Player.isMuted (Player.view s) = false ->
        Audio.volume (Player.audio s') = 0%Q) /\
     (Player.isMuted (Player.view s) = true ->
        Audio.volume (Player.audio s') = Player.volume (Player.view s))) /\
  (forall s : App.Session,
     (0 <= App.volume (App.view s))%Q ->
     (App.volume (App.view s) <= 1)%Q ->
     let s' := App.toggleMute (App.view s) s in
     App.volume (App.view s') = App.volume (App.view s) /\
     App.isMuted (App.view s') = negb (App.isMuted (App.view s)) /\
     (App.isMuted (App.view s) = false ->
        Audio.volume (App.audio s') = 0%Q) /\
     (App.isMuted (App.view s) = true ->
        ~ (App.volume (App.view s) == 0)%Q ->
        Audio.volume (App.audio s') = App.volume (App.view s)) /\
     (App.isMuted (App.view s) = true ->
        (App.volume (App.view s) == 0)%Q ->
        Audio.volume (App.audio s') = (1 # 2)%Q)).
Proof.
  split.
  - intros s H0 H1 s'. unfold s', Player.toggleMute.
    destruct (Player.isMuted (Player.view s)).
    + rewrite (set_volume_in_range _ _ H0 H1). simpl.
      repeat split; auto; discriminate.
    + simpl. repeat split; auto; discriminate.
  - intros s H0 H1 s'. unfold s', App.toggleMute, App.orHalf.
    destruct (App.isMuted (App.view s)).
    + destruct (Qeq_bool (App.volume (App.view s)) 0) eqn:E.
      * apply Qeq_bool_iff in E. simpl.
        repeat split; auto; try discriminate. intros _ Hn. contradiction.
      * rewrite (set_volume_in_range _ _ H0 H1). simpl.
        repeat split; auto; try discriminate.
        intros _ Hz. apply Qeq_bool_iff in Hz. congruence.
    + simpl. repeat split; auto; discriminate.
Qed.

Lemma C7_mute_overrides_the_output_only_witness :
  Audio.volume
    (Player.audio (Player.toggleMute (Player.view player_playing) player_playing))
    = 0%Q /\
  Audio.volume (App.audio (App.toggleMute (App.view app_silenced) app_silenced))
    = (1 # 2)%Q.
Proof.
  destruct C7_mute_overrides_the_output_only as [Hplayer Happ].
  split.
  - refine (proj1 (proj2 (proj2 (Hplayer player_playing _ _))) _);
      vm_compute; try discriminate. reflexivity.
  - refine (proj2 (proj2 (proj2 (proj2 (Happ app_silenced _ _)))) _ _);
      vm_compute; try discriminate; reflexivity.
Defined.

(** C8 at the failing input: [AudioPlayer] names the track of the file
    [song.mp3] [song.mp3], with its extension, where the name with the
    extension stripped is [song], the name [App] gives it. *)
Theorem C8_player_keeps_the_extension :
  let s := Player.run [Player.Upload [song]; Player.ProbeLoaded 0 "t1" 10]
                      (Player.mount []) in
  map Player.AudioFile.name (Player.audioFiles (Player.view s)) = ["song.mp3"] /\
  replace_extension (file_name song) = "song" /\
  map App.Track.name
    (App.tracks
       (App.view (App.run [App.Upload [song]; App.ProbeLoaded 0 "t1" 10]
                          (App.mount [])))) = ["song"].
Proof. repeat split. Qed.




(** C10: [deleteTrack] with the id of a track that is not the current one,
    in a list with distinct ids, removes that track and no other, and
    leaves [currentTrack], [isPlaying], [currentTime], [volume], [isMuted]
    and the element as they were ([PlaylistManager] has only the first
    two). *)
Theorem C10_delete_of_another_track_is_local :
  (forall (s : Player.Session) (l1 l2 : list Player.AudioFile.t)
          (t : Player.AudioFile.t),
     Player.audioFiles (Player.view s) = l1 ++ t :: l2 ->
     NoDup (map Player.AudioFile.id (Player.audioFiles (Player.view s))) ->
     Player.isCurrent (Player.view s) (Player.AudioFile.id t) = false ->
     let s' := Player.deleteTrack (Player.view s) (Player.AudioFile.id t) s in
     Player.audioFiles (Player.view s') = l1 ++ l2 /\
     Player.currentTrack (Player.view s') = Player.currentTrack (Player.view s) /\
     Player.isPlaying (Player.view s') = Player.isPlaying (Player.view s) /\
     Player.currentTime (Player.view s') = Player.currentTime (Player.view s) /\
     Player.volume (Player.view s') = Player.volume (Player.view s) /\
     Player.isMuted (Player.view s') = Player.isMuted (Player.view s) /\
     Player.audio s' = Player.audio s) /\
  (forall (s : Manager.Session) (l1 l2 : list Manager.Track.t)
          (t : Manager.Track.t),
     Manager.tracks (Manager.view s) = l1 ++ t :: l2 ->
     NoDup (map Manager.Track.id (Manager.tracks (Manager.view s))) ->
     Manager.isCurrent (Manager.view s) (Manager.Track.id t) = false ->
     let s' := Manager.deleteTrack (Manager.view s) (Manager.Track.id t) s in
     Manager.tracks (Manager.view s') = l1 ++ l2 /\
     Manager.currentTrack (Manager.view s')
       = Manager.currentTrack (Manager.view s) /\
     Manager.isPlaying (Manager.view s') = Manager.isPlaying (Manager.view s)) /\
  (forall (s : App.Session) (l1 l2 : list App.Track.t) (t : App.Track.t),
     App.tracks (App.view s) = l1 ++ t :: l2 ->
     NoDup (map App.Track.id (App.tracks (App.view s))) ->
     App.isCurrent (App.view s) (App.Track.id t) = false ->
     let s' := App.deleteTrack (App.view s) (App.Track.id t) s in
     App.tracks (App.view s') = l1 ++ l2 /\
     App.currentTrack (App.view s') = App.currentTrack (App.view s) /\
     App.isPlaying (App.view s') = App.isPlaying (App.view s) /\
     App.currentTime (App.view s') = App.currentTime (App.view s) /\
     App.volume (App.view s') = App.volume (App.view s) /\
     App.isMuted (App.view s') = App.isMuted (App.view s) /\
     App.audio s' = App.audio s).
Proof.
  split; [|split].
  - intros s l1 l2 t Hl Hnd Hc s'. unfold s', Player.deleteTrack.
    rewrite Hc. simpl. rewrite Hl in *.
    rewrite (filter_key_unique Player.AudioFile.id l1 l2 t Hnd).
    repeat split.
  - intros s l1 l2 t Hl Hnd Hc s'. unfold s', Manager.deleteTrack. simpl.
    rewrite (manager_view_discard_other _ _ _ _ Hc).
    rewrite Hl in *.
    rewrite (filter_key_unique Manager.Track.id l1 l2 t Hnd).
    repeat split.
  - intros s l1 l2 t Hl Hnd Hc s'. unfold s', App.deleteTrack.
    rewrite Hc. simpl. rewrite Hl in *.
    rewrite (filter_key_unique App.Track.id l1 l2 t Hnd).
    repeat split.
Qed.

Lemma C10_delete_of_another_track_is_local_witness :
  Player.audioFiles
    (Player.view (Player.deleteTrack (Player.view player_on_B) "a" player_on_B))
    = [fileB] /\
  Manager.tracks
    (Manager.view
       (Manager.deleteTrack (Manager.view (manager_playing trackB)) "a"
          (manager_playing trackB))) = [trackB] /\
  App.isPlaying (App.view (App.deleteTrack (App.view app_on_B) "a" app_on_B))
    = App.isPlaying (App.view app_on_B).
Proof.
  destruct C10_delete_of_another_track_is_local as (Hplayer & Hmanager & Happ).
  split; [|split].
  - assert (Player.audioFiles (Player.view player_on_B) = [] ++ fileA :: [fileB])
      as H0 by (vm_compute; reflexivity).
    refine (proj1 (Hplayer player_on_B [] [fileB] fileA H0 _ _)).
    + rewrite H0. repeat constructor; simpl; intuition discriminate.
    + vm_compute. reflexivity.
  - refine (proj1 (Hmanager (manager_playing trackB) [] [trackB] trackA
                     eq_refl _ _)).
    + repeat constructor; simpl; intuition discriminate.
    + reflexivity.
  - assert (App.tracks (App.view app_on_B) = [] ++ appA :: [appB])
      as H0 by (vm_compute; reflexivity).
    refine (proj1 (proj2 (proj2 (Happ app_on_B [] [appB] appA H0 _ _)))).
    + rewrite H0. repeat constructor; simpl; intuition discriminate.
    + vm_compute. reflexivity.
Defined.


(** * Further properties of the code *)

Import Cases.

(** ** Utilities *)

Lemma utils_max_spec a b :
  (a <= Utils.max a b)%Q /\ (b <= Utils.max a b)%Q /\
  (Utils.max a b == a \/ Utils.max a b == b)%Q.
Proof.
  unfold Utils.max. destruct (Qle_bool a b) eqn:E.
  - apply Qle_bool_iff in E. split; [|split]; [lra | lra | right; reflexivity].
  - assert (~ (a <= b)%Q) by (intros H; apply Qle_bool_iff in H; congruence).
    split; [|split]; [lra | lra | left; reflexivity].
Qed.

Lemma utils_min_spec a b :
  (Utils.min a b <= a)%Q /\ (Utils.min a b <= b)%Q /\
  (Utils.min a b == a \/ Utils.min a b == b)%Q.
Proof.
  unfold Utils.min. destruct (Qle_bool a b) eqn:E.
  - apply Qle_bool_iff in E. split; [|split]; [lra | lra | left; reflexivity].
  - assert (~ (a <= b)%Q) by (intros H; apply Qle_bool_iff in H; congruence).
    split; [|split]; [lra | lra | right; reflexivity].
Qed.

(** [clamp] with bounds in order: the result lies between the bounds, a
    value between them is returned as it is, a value below [min] gives
    [min] and a value above [max] gives [max]. *)
Theorem clamp_between_the_bounds (value min max : Q) :
  (min <= max)%Q ->
  (min <= Utils.clamp value min max)%Q /\
  (Utils.clamp value min max <= max)%Q /\
  ((min <= value)%Q -> (value <= max)%Q -> (Utils.clamp value min max == value)%Q) /\
  ((value <= min)%Q -> (Utils.clamp value min max == min)%Q) /\
  ((max <= value)%Q -> (Utils.clamp value min max == max)%Q).
Proof.
  intros H. unfold Utils.clamp.
  destruct (utils_max_spec value min) as (M1 & M2 & M3).
  destruct (utils_min_spec (Utils.max value min) max) as (N1 & N2 & N3).
  repeat split.
  - destruct N3 as [E|E]; rewrite E; lra.
  - exact N2.
  - intros. destruct N3 as [E|E], M3 as [F|F]; lra.
  - intros. destruct N3 as [E|E], M3 as [F|F]; lra.
  - intros. destruct N3 as [E|E], M3 as [F|F]; lra.
Qed.

Lemma clamp_between_the_bounds_witness :
  (Utils.clamp 5 0 1 == 1)%Q /\ (Utils.clamp (-5) 0 1 == 0)%Q.
Proof.
  split.
  - refine (proj2 (proj2 (proj2 (proj2
      (clamp_between_the_bounds 5 0 1 _)))) _); vm_compute; discriminate.
  - refine (proj1 (proj2 (proj2 (proj2
      (clamp_between_the_bounds (-5) 0 1 _)))) _); vm_compute; discriminate.
Defined.

(** With the bounds out of order [clamp] returns [max], whatever the value. *)
Theorem clamp_with_crossed_bounds (value min max : Q) :
  (max < min)%Q -> (Utils.clamp value min max == max)%Q.
Proof.
  intros H. unfold Utils.clamp.
  destruct (utils_max_spec value min) as (M1 & M2 & M3).
  destruct (utils_min_spec (Utils.max value min) max) as (N1 & N2 & N3).
  destruct N3 as [E|E]; lra.
Qed.

Lemma clamp_with_crossed_bounds_witness : (Utils.clamp 5 1 0 == 0)%Q.
Proof. apply clamp_with_crossed_bounds. vm_compute. reflexivity. Defined.

Lemma sanitized_char_is_safe (c : ascii) :
  Utils.isSafe
    (Utils.lowerChar (if Utils.isPlain c then c else "_"%char)) = true.
Proof. destruct c as [[] [] [] [] [] [] [] []]; reflexivity. Qed.

Lemma safe_char_is_kept (c : ascii) :
  Utils.isSafe c = true ->
  Utils.lowerChar (if Utils.isPlain c then c else "_"%char) = c.
Proof. destruct c as [[] [] [] [] [] [] [] []]; intros H; try reflexivity; discriminate H. Qed.

Lemma length_mapChars f s :
  String.length (Utils.mapChars f s) = String.length s.
Proof. induction s as [|c s IH]; simpl; congruence. Qed.

Lemma mapChars_mapChars f g s :
  Utils.mapChars f (Utils.mapChars g s) = Utils.mapChars (fun c => f (g c)) s.
Proof. induction s as [|c s IH]; simpl; congruence. Qed.

Lemma mapChars_id_on f p s :
  (forall c, p c = true -> f c = c) ->
  Utils.everyChar p s = true -> Utils.mapChars f s = s.
Proof.
  intros Hf. induction s as [|c s IH]; simpl; auto.
  intros H. apply andb_true_iff in H as [Hc Hs].
  now rewrite (Hf c Hc), IH.
Qed.

Lemma everyChar_mapChars f p s :
  (forall c, p (f c) = true) -> Utils.everyChar p (Utils.mapChars f s) = true.
Proof.
  intros Hf. induction s as [|c s IH]; simpl; auto. now rewrite Hf, IH.
Qed.

(** [sanitizeFileName] keeps the length of the name, returns only the
    characters [a-z0-9._-], and leaves a name made of these characters as
    it is; so sanitizing twice is sanitizing once. *)
Theorem sanitizeFileName_is_safe_and_stable (fileName : string) :
  String.length (Utils.sanitizeFileName fileName) = String.length fileName /\
  Utils.everyChar Utils.isSafe (Utils.sanitizeFileName fileName) = true /\
  (Utils.everyChar Utils.isSafe fileName = true ->
     Utils.sanitizeFileName fileName = fileName) /\
  Utils.sanitizeFileName (Utils.sanitizeFileName fileName)
  = Utils.sanitizeFileName fileName.
Proof.
  unfold Utils.sanitizeFileName, Utils.toLowerCase.
  assert (forall s,
            Utils.everyChar Utils.isSafe
              (Utils.mapChars Utils.lowerChar
                 (Utils.mapChars (fun c => if Utils.isPlain c then c else "_"%char) s))
            = true) as Hsafe.
  { intros s. rewrite mapChars_mapChars.
    apply everyChar_mapChars. exact sanitized_char_is_safe. }
  assert (forall s, Utils.everyChar Utils.isSafe s = true ->
            Utils.mapChars Utils.lowerChar
              (Utils.mapChars (fun c => if Utils.isPlain c then c else "_"%char) s)
            = s) as Hkeep.
  { intros s H. rewrite mapChars_mapChars.
    apply (mapChars_id_on _ Utils.isSafe); auto. exact safe_char_is_kept. }
  repeat split.
  - now rewrite !length_mapChars.
  - apply Hsafe.
  - apply Hkeep.
  - apply Hkeep. apply Hsafe.
Qed.

Lemma sanitizeFileName_is_safe_and_stable_witness :
  Utils.sanitizeFileName "my_song.mp3" = "my_song.mp3".
Proof.
  refine (proj1 (proj2 (proj2
    (sanitizeFileName_is_safe_and_stable "my_song.mp3"))) _).
  vm_compute. reflexivity.
Defined.

Lemma split_nonempty sep s : Utils.split sep s <> [].
Proof.
  destruct s as [|c s]; simpl; [discriminate|].
  destruct (Ascii.eqb c sep); [discriminate|].
  destruct (Utils.split sep s); discriminate.
Qed.

(** The pieces of a split hold no separator, and only characters of the
    string that was split. *)
Lemma split_pieces sep (p : ascii -> bool) s :
  Utils.everyChar p s = true ->
  Forall (fun piece =>
            Utils.everyChar p piece = true /\
            Utils.everyChar (fun c => negb (Ascii.eqb c sep)) piece = true)
         (Utils.split sep s).
Proof.
  induction s as [|c s IH]; simpl; intros H.
  - repeat constructor.
  - apply andb_true_iff in H as [Hc Hs]. specialize (IH Hs).
    destruct (Ascii.eqb c sep) eqn:E.
    + constructor; auto.
    + destruct (Utils.split sep s) as [|h t] eqn:S.
      * repeat constructor; simpl; now rewrite ?Hc, ?E.
      * inversion IH as [|? ? [H1 H2] Ht]; subst.
        constructor; auto. simpl. now rewrite Hc, E, H1, H2.
Qed.

Lemma Forall_last {A : Type} (P : A -> Prop) xs d :
  xs <> [] -> Forall P xs -> P (last xs d).
Proof.
  induction xs as [|x xs IH]; [congruence|].
  intros _ H. inversion H; subst. destruct xs as [|y ys]; auto.
  apply IH; [discriminate | assumption].
Qed.

Lemma everyChar_true s : Utils.everyChar (fun _ => true) s = true.
Proof. induction s; simpl; auto. Qed.

(** [extractFileName] never returns the empty string, and what it returns
    holds neither a slash nor a dot. *)
Theorem extractFileName_is_a_bare_name (filePath : string) :
  Utils.extractFileName filePath <> "" /\
  Utils.everyChar Utils.isNameChar (Utils.extractFileName filePath) = true.
Proof.
  unfold Utils.extractFileName.
  set (segment := last (Utils.split "/" filePath) "").
  assert (Utils.everyChar (fun c => negb (Ascii.eqb c "/")) segment = true)
    as Hseg.
  { unfold segment.
    apply (Forall_last
             (fun piece =>
                Utils.everyChar (fun _ => true) piece = true /\
                Utils.everyChar (fun c => negb (Ascii.eqb c "/")) piece = true)).
    - apply split_nonempty.
    - apply split_pieces. apply everyChar_true. }
  pose proof (split_pieces "." _ segment Hseg) as Hp.
  pose proof (split_nonempty "." segment) as Hne.
  destruct (Utils.split "." segment) as [|name rest]; [congruence|].
  simpl. inversion Hp as [|? ? [H1 H2] _]; subst.
  destruct (String.eqb_spec name ""); [split; [discriminate | reflexivity]|].
  split; auto.
  clear -H1 H2. induction name as [|c r IH]; simpl in *; auto.
  apply andb_true_iff in H1 as [A1 A2]. apply andb_true_iff in H2 as [B1 B2].
  unfold Utils.isNameChar at 1. rewrite A1, B1. simpl. auto.
Qed.

(** A path whose last segment starts with a name gives that name. *)
Example extractFileName_examples :
  Utils.extractFileName "music/live/song.tar.gz" = "song" /\
  Utils.extractFileName "music/" = "Unknown" /\
  Utils.extractFileName ".hidden" = "Unknown".
Proof. repeat split. Qed.

Lemma no_slash_no_dot_with_dot a b :
  no_slash_no_dot (a ++ String "." b)%string = false.
Proof.
  induction a as [|c a IH]; simpl.
  - reflexivity.
  - rewrite IH. apply andb_false_r.
Qed.

Lemma no_slash_no_dot_is_everyChar s :
  no_slash_no_dot s = Utils.everyChar Utils.isNameChar s.
Proof. induction s as [|c s IH]; simpl; auto. now rewrite IH. Qed.

(** The name [App] and [PlaylistManager] give a track: a file name
    [base.ext], where [ext] is not empty and holds neither a dot nor a
    slash, becomes [base], whatever [base] holds; a name without a dot is
    kept as it is. *)
Theorem replace_extension_strips_the_last_extension :
  (forall base ext : string,
     ext <> "" -> no_slash_no_dot ext = true ->
     replace_extension (base ++ String "." ext)%string = base) /\
  (forall name : string,
     Utils.everyChar (fun c => negb (Ascii.eqb c ".")) name = true ->
     replace_extension name = name).
Proof.
  split.
  - intros base ext Hne Hext. induction base as [|c base IH]; simpl.
    + rewrite Hext. destruct (String.eqb_spec ext ""); [congruence|].
      reflexivity.
    + rewrite no_slash_no_dot_with_dot, andb_false_r. now rewrite IH.
  - intros name. induction name as [|c name IH]; simpl; auto.
    intros H. apply andb_true_iff in H as [Hc Hs].
    apply negb_true_iff in Hc. rewrite Hc. simpl. now rewrite IH.
Qed.

Lemma replace_extension_strips_the_last_extension_witness :
  replace_extension ("live.2019" ++ String "." "mp3")%string = "live.2019" /\
  replace_extension "README" = "README".
Proof.
  destruct replace_extension_strips_the_last_extension as [Hstrip Hkeep].
  split.
  - apply Hstrip; [discriminate | reflexivity].
  - apply Hkeep. reflexivity.
Defined.

(** A name that is nothing but an extension is stripped to nothing, and a
    trailing dot is no extension. *)
Example replace_extension_edge_cases :
  replace_extension ".mp3" = "" /\ replace_extension "song." = "song."
  /\ replace_extension "a.b/c" = "a.b/c".
Proof. repeat split. Qed.

(** ** [shuffleArray] *)

Lemma nth_error_assign {A : Type} (xs : list A) : forall i j x,
  (i < List.length xs)%nat ->
  nth_error (Utils.assign i x xs) j
  = if Nat.eqb i j then Some x else nth_error xs j.
Proof.
  induction xs as [|y xs IH]; intros i j x Hi; simpl in Hi; [lia|].
  destruct i as [|i], j as [|j]; simpl; auto.
  apply IH. lia.
Qed.

Lemma length_assign {A : Type} (xs : list A) : forall i x,
  List.length (Utils.assign i x xs) = List.length xs.
Proof.
  induction xs as [|y xs IH]; intros [|i] x; simpl; auto.
Qed.

Lemma assign_dropNth {A : Type} (xs : list A) : forall i x,
  (i < List.length xs)%nat ->
  Permutation (Utils.assign i x xs) (x :: dropNth i xs).
Proof.
  induction xs as [|y xs IH]; intros i x Hi; simpl in Hi; [lia|].
  destruct i as [|i]; simpl.
  - unfold dropNth. simpl. reflexivity.
  - unfold dropNth in *. simpl. rewrite IH by lia. apply perm_swap.
Qed.

Lemma swap_is_a_permutation {A : Type} (i j : nat) (xs : list A) :
  Permutation (Utils.swap i j xs) xs.
Proof.
  unfold Utils.swap.
  destruct (nth_error xs i) as [xi|] eqn:Ei; [|reflexivity].
  destruct (nth_error xs j) as [xj|] eqn:Ej; [|reflexivity].
  assert (i < List.length xs)%nat as Hi by (apply nth_error_Some; congruence).
  assert (j < List.length xs)%nat as Hj by (apply nth_error_Some; congruence).
  set (ys := Utils.assign i xj xs).
  assert (nth_error ys j = Some xj) as Eyj.
  { unfold ys. rewrite nth_error_assign by assumption.
    destruct (Nat.eqb i j); auto. }
  assert (j < List.length ys)%nat as Hj' by (unfold ys; now rewrite length_assign).
  rewrite (assign_dropNth ys j xi Hj').
  rewrite (Permutation_dropNth xs i xi Ei).
  apply perm_skip.
  apply (Permutation_cons_inv (a := xj)).
  rewrite <- (Permutation_dropNth ys j xj Eyj).
  unfold ys. now apply assign_dropNth.
Qed.

Lemma shuffleFrom_is_a_permutation {A : Type} (random : nat -> Q) (i : nat) :
  forall xs : list A, Permutation (Utils.shuffleFrom random i xs) xs.
Proof.
  induction i as [|i IH]; intros xs; simpl; [reflexivity|].
  rewrite IH. apply swap_is_a_permutation.
Qed.

(** The index drawn for position [i] lies in [0, i]. *)
Lemma drawn_index_in_range (r : Q) (i : nat) :
  (0 <= r)%Q -> (r < 1)%Q ->
  (Z.to_nat (Qfloor (r * inject_Z (Z.of_nat i + 1))) <= i)%nat.
Proof.
  intros H0 H1.
  assert (0 < inject_Z (Z.of_nat i + 1))%Q as Hpos.
  { rewrite <- (Zlt_Qlt 0). lia. }
  assert (r * inject_Z (Z.of_nat i + 1) < inject_Z (Z.of_nat i + 1))%Q as Hlt.
  { rewrite <- (Qmult_1_l (inject_Z (Z.of_nat i + 1))) at 2.
    apply Qmult_lt_compat_r; assumption. }
  assert (Qfloor (r * inject_Z (Z.of_nat i + 1)) < Z.of_nat i + 1) as Hf.
  { rewrite Zlt_Qlt. eapply Qle_lt_trans; [apply Qfloor_le | exact Hlt]. }
  lia.
Qed.

(** [shuffleArray] returns the elements of its argument, each as often as
    it occurs there, in some order; in particular the length is kept. *)
Theorem shuffleArray_is_a_permutation {A : Type} (random : nat -> Q)
  (array : list A) :
  (forall i, (0 <= random i)%Q /\ (random i < 1)%Q) ->
  Permutation (Utils.shuffleArray random array) array /\
  List.length (Utils.shuffleArray random array) = List.length array.
Proof.
  intros _.
  assert (Permutation (Utils.shuffleArray random array) array) as H
      by apply shuffleFrom_is_a_permutation.
  split; auto. now apply Permutation_length.
Qed.

Lemma shuffleArray_is_a_permutation_witness :
  Permutation (Utils.shuffleArray (fun _ => 1 # 2) [1; 2; 3; 4; 5])
              [1; 2; 3; 4; 5].
Proof.
  refine (proj1 (shuffleArray_is_a_permutation (fun _ => 1 # 2)
                   [1; 2; 3; 4; 5] _)).
  intros i. split; vm_compute; [discriminate | reflexivity].
Defined.

(** ** Invariants of the sessions *)

Ltac break_match :=
  repeat match goal with
         | |- context [match ?x with _ => _ end] => destruct x eqn:?
         | |- context [if ?x then _ else _] => destruct x eqn:?
         end.

Lemma player_audio_handleFileUpload files : forall s,
  Player.audio (Player.handleFileUpload files s) = Player.audio s.
Proof.
  unfold Player.handleFileUpload.
  induction files as [|f files IH]; intros s; simpl; auto.
  rewrite IH. destruct (isAudio f); reflexivity.
Qed.

Lemma player_bound_handleFileUpload files : forall s,
  Player.bound (Player.handleFileUpload files s) = Player.bound s.
Proof.
  unfold Player.handleFileUpload.
  induction files as [|f files IH]; intros s; simpl; auto.
  rewrite IH. destruct (isAudio f); reflexivity.
Qed.

Lemma app_audio_handleFileUpload files : forall s,
  App.audio (App.handleFileUpload files s) = App.audio s.
Proof.
  unfold App.handleFileUpload.
  induction files as [|f files IH]; intros s; simpl; auto.
  rewrite IH. destruct (isAudio f); reflexivity.
Qed.

Lemma player_volume_commit before s :
  Audio.volume (Player.audio (Player.commit before s))
  = Audio.volume (Player.audio s).
Proof. unfold Player.commit. break_match; reflexivity. Qed.

Lemma app_audio_commit before s :
  App.audio (App.commit before s) = App.audio s.
Proof. unfold App.commit. break_match; reflexivity. Qed.

Lemma set_volume_some v a a' :
  Audio.set_volume v a = Some a' ->
  Audio.volume a' = v /\ (0 <= v)%Q /\ (v <= 1)%Q.
Proof.
  unfold Audio.set_volume.
  destruct (Qle_bool 0 v) eqn:E0; [|discriminate].
  destruct (Qle_bool v 1) eqn:E1; [|discriminate].
  simpl. intros H. injection H as <-.
  apply Qle_bool_iff in E0. apply Qle_bool_iff in E1. auto.
Qed.

Lemma player_dispatch_muted e s :
  (Player.isMuted (Player.view s) = true ->
   (Audio.volume (Player.audio s) == 0)%Q) ->
  Player.isMuted (Player.view (Player.dispatch e s)) = true ->
  (Audio.volume (Player.audio (Player.dispatch e s)) == 0)%Q.
Proof.
  intros IH. destruct e; simpl.
  - rewrite player_view_handleFileUpload, player_audio_handleFileUpload. exact IH.
  - destruct (nth_error (Player.probes s) k); exact IH.
  - destruct (nth_error _ index); auto.
    unfold Player.playTrack, Player.togglePlayPause. break_match; exact IH.
  - destruct (nth_error _ index); auto.
    unfold Player.deleteTrack. break_match; exact IH.
  - unfold Player.togglePlayPause. break_match; exact IH.
  - unfold Player.playNext. break_match; exact IH.
  - unfold Player.playPrevious. break_match; exact IH.
  - unfold Player.handleSeek. break_match; exact IH.
  - destruct (Player.controls (Player.view s)); auto.
    unfold Player.handleVolumeChange. simpl.
    destruct (Audio.set_volume (value / 100) (Player.audio s)) as [a|] eqn:E;
      simpl; auto.
    intros Hm. apply set_volume_some in E as [-> _].
    now apply Qeq_bool_iff.
  - destruct (Player.controls (Player.view s)); auto.
    unfold Player.toggleMute.
    destruct (Player.isMuted (Player.view s)) eqn:M.
    + destruct (Audio.set_volume _ _); simpl; [discriminate | auto].
    + simpl. intros _. reflexivity.
  - exact IH.
  - exact IH.
  - unfold Player.handleEnded, Player.playNext. break_match; exact IH.
  - exact IH.
Qed.

Lemma app_dispatch_sound e s :
  ((0 <= App.volume (App.view s))%Q /\ (App.volume (App.view s) <= 1)%Q /\
   (App.isMuted (App.view s) = true -> (Audio.volume (App.audio s) == 0)%Q)) ->
  (0 <= App.volume (App.view (App.dispatch e s)))%Q /\
  (App.volume (App.view (App.dispatch e s)) <= 1)%Q /\
  (App.isMuted (App.view (App.dispatch e s)) = true ->
   (Audio.volume (App.audio (App.dispatch e s)) == 0)%Q).
Proof.
  intros IH. destruct e; simpl.
  - rewrite app_view_handleFileUpload, app_audio_handleFileUpload. exact IH.
  - destruct (nth_error (App.probes s) k); exact IH.
  - destruct (nth_error _ index); auto.
    unfold App.handlePlay. break_match; exact IH.
  - destruct (nth_error _ index); auto.
    unfold App.deleteTrack. break_match; exact IH.
  - unfold App.handlePlay. break_match; exact IH.
  - unfold App.handleNext, App.handlePlay. break_match; exact IH.
  - unfold App.handlePrevious, App.handlePlay. break_match; exact IH.
  - break_match; exact IH.
  - destruct (App.controls (App.view s)); auto.
    unfold App.handleVolumeChange.
    destruct (Audio.set_volume value (App.audio s)) as [a|] eqn:E; simpl; auto.
    apply set_volume_some in E as (-> & H0 & H1).
    repeat split; auto. intros Hm. now apply Qeq_bool_iff.
  - destruct (App.controls (App.view s)); auto.
    destruct IH as (H0 & H1 & Hm).
    unfold App.toggleMute.
    destruct (App.isMuted (App.view s)) eqn:M.
    + destruct (Audio.set_volume _ _); simpl; repeat split; auto; discriminate.
    + simpl. repeat split; auto; try reflexivity.
  - exact IH.
  - exact IH.
  - unfold App.handleEnded, App.handleNext, App.handlePlay. break_match; exact IH.
Qed.

(** Whenever a session shows the player as muted, the element's volume
    is 0: in every reachable state of [AudioPlayer] and of [App]. *)
Theorem muted_means_silent :
  (forall s, Player.reachable s ->
     Player.isMuted (Player.view s) = true ->
     (Audio.volume (Player.audio s) == 0)%Q) /\
  (forall s, App.reachable s ->
     App.isMuted (App.view s) = true ->
     (Audio.volume (App.audio s) == 0)%Q).
Proof.
  split.
  - induction 1 as [saved | s e _ IH].
    + discriminate.
    + unfold Player.handle.
      rewrite player_view_commit, player_volume_commit.
      now apply player_dispatch_muted.
  - intros s H.
    enough ((0 <= App.volume (App.view s))%Q /\
            (App.volume (App.view s) <= 1)%Q /\
            (App.isMuted (App.view s) = true ->
             (Audio.volume (App.audio s) == 0)%Q)) as (_ & _ & R) by exact R.
    induction H as [saved | s e _ IH].
    + simpl. repeat split; try discriminate.
    + unfold App.handle. rewrite app_view_commit, app_audio_commit.
      now apply app_dispatch_sound.
Qed.

Lemma muted_means_silent_witness :
  (Audio.volume (App.audio app_silenced) == 0)%Q.
Proof.
  apply (proj2 muted_means_silent).
  - unfold app_silenced. apply app_reachable_run. apply App.reach_mount.
  - reflexivity.
Defined.

(** [App] never stores a volume outside [0, 1]: the element refuses such a
    value before [setVolume] is reached. *)
Theorem app_volume_stays_in_range :
  forall s, App.reachable s ->
    (0 <= App.volume (App.view s))%Q /\ (App.volume (App.view s) <= 1)%Q.
Proof.
  intros s H.
  enough ((0 <= App.volume (App.view s))%Q /\
          (App.volume (App.view s) <= 1)%Q /\
          (App.isMuted (App.view s) = true ->
           (Audio.volume (App.audio s) == 0)%Q)) as (R0 & R1 & _) by auto.
  induction H as [saved | s e _ IH].
  - simpl. repeat split; try discriminate.
  - unfold App.handle. rewrite app_view_commit, app_audio_commit.
    now apply app_dispatch_sound.
Qed.

Lemma app_volume_stays_in_range_witness :
  (App.volume (App.view (App.handle (App.VolumeChange 5) app_playing)) <= 1)%Q.
Proof.
  apply app_volume_stays_in_range.
  apply App.reach_handle. unfold app_playing.
  apply app_reachable_run. apply App.reach_mount.
Defined.

Lemma player_bound_dispatch e s :
  Player.bound (Player.dispatch e s) = Player.bound s.
Proof.
  destruct e; simpl; auto using player_bound_handleFileUpload;
    unfold Player.playTrack, Player.togglePlayPause, Player.deleteTrack,
      Player.playNext, Player.playPrevious, Player.handleSeek,
      Player.handleVolumeChange, Player.toggleMute, Player.handleEnded,
      Player.playNext;
    break_match; reflexivity.
Qed.

Lemma rem_next_nonneg (i n : Z) : 0 <= i -> 0 <= Z.rem (i + 1) n.
Proof.
  intros H. destruct (Z.eq_dec n 0) as [->|Hn].
  - rewrite Z.rem_0_r_ext by reflexivity. lia.
  - apply Z.rem_nonneg; lia.
Qed.

Lemma player_index_playNext r s :
  0 <= Player.currentIndex r ->
  0 <= Player.currentIndex (Player.view s) ->
  0 <= Player.currentIndex (Player.view (Player.playNext r s)).
Proof.
  intros Hr Hs. unfold Player.playNext.
  destruct (len (Player.audioFiles r) =? 0); simpl; auto.
  now apply rem_next_nonneg.
Qed.

Lemma player_dispatch_index e s :
  0 <= Player.currentIndex (Player.view s) ->
  0 <= Player.currentIndex (Player.bound s) ->
  0 <= Player.currentIndex (Player.view (Player.dispatch e s)).
Proof.
  intros Hv Hb. destruct e; simpl.
  - now rewrite player_view_handleFileUpload.
  - destruct (nth_error (Player.probes s) k); exact Hv.
  - destruct (nth_error _ index); auto.
    unfold Player.playTrack, Player.togglePlayPause.
    break_match; simpl; auto; lia.
  - destruct (nth_error _ index); auto.
    unfold Player.deleteTrack. break_match; exact Hv.
  - unfold Player.togglePlayPause. break_match; exact Hv.
  - destruct (Player.controls (Player.view s)); auto.
    now apply player_index_playNext.
  - destruct (Player.controls (Player.view s)); auto.
    unfold Player.playPrevious.
    destruct (Z.eqb_spec (len (Player.audioFiles (Player.view s))) 0); auto.
    simpl.
    destruct (Z.eqb_spec (Player.currentIndex (Player.view s)) 0);
      unfold len in *; lia.
  - break_match; exact Hv.
  - unfold Player.handleVolumeChange. break_match; exact Hv.
  - unfold Player.toggleMute. break_match; exact Hv.
  - exact Hv.
  - exact Hv.
  - unfold Player.handleEnded. now apply player_index_playNext.
  - exact Hv.
Qed.

Lemma player_reachable_index s :
  Player.reachable s ->
  0 <= Player.currentIndex (Player.view s) /\
  0 <= Player.currentIndex (Player.bound s).
Proof.
  induction 1 as [saved | s e _ [Hv Hb]].
  - simpl. lia.
  - pose proof (player_dispatch_index e s Hv Hb) as Hd.
    unfold Player.handle, Player.commit.
    break_match; simpl; rewrite ?player_bound_dispatch; auto.
Qed.

(** In every reachable state of [AudioPlayer] the index is not negative,
    and [playNext] on a list that is not empty always lands on a track of
    the list, also when deletions have left the index past its end. *)
Theorem player_next_always_lands_on_a_track :
  forall s, Player.reachable s ->
    0 <= Player.currentIndex (Player.view s) /\
    (Player.audioFiles (Player.view s) <> [] ->
     exists t,
       Player.currentTrack (Player.view (Player.playNext (Player.view s) s))
       = Some t /\
       In t (Player.audioFiles (Player.view s))).
Proof.
  intros s H. destruct (player_reachable_index s H) as [Hv _].
  split; auto. intros Hne.
  destruct (player_view_playNext (Player.view s) s Hne) as (Ht & _).
  destruct (item_in_range (Player.audioFiles (Player.view s))
              (Z.rem (Player.currentIndex (Player.view s) + 1)
                     (len (Player.audioFiles (Player.view s)))))
    as [t Et].
  { apply rem_in_range; auto. now apply len_pos. }
  exists t. split; [congruence|].
  unfold item in Et. destruct (_ <? 0); [discriminate|].
  eapply nth_error_In; eauto.
Qed.

Lemma player_next_always_lands_on_a_track_witness :
  0 <= Player.currentIndex
         (Player.view (Player.run [Player.ClickDelete 0] player_on_B)).
Proof.
  apply player_next_always_lands_on_a_track.
  apply player_reachable_run. unfold player_on_B.
  apply player_reachable_run. apply Player.reach_mount.
Defined.

(** After a click on next, a click on previous returns to the track and
    the index the session had, in [AudioPlayer] (index within the list)
    and in [App] (list with distinct ids). *)
Theorem previous_undoes_next :
  (forall (s : Player.Session) (i : nat) (c : Player.AudioFile.t),
     nth_error (Player.audioFiles (Player.view s)) i = Some c ->
     Player.currentIndex (Player.view s) = Z.of_nat i ->
     Player.currentTrack (Player.view s) = Some c ->
     let s' := Player.handle Player.ClickPrevious
                 (Player.handle Player.ClickNext s) in
     Player.currentIndex (Player.view s') = Z.of_nat i /\
     Player.currentTrack (Player.view s') = Some c) /\
  (forall (s : App.Session) (i : nat) (c : App.Track.t),
     NoDup (map App.Track.id (App.tracks (App.view s))) ->
     nth_error (App.tracks (App.view s)) i = Some c ->
     App.currentTrack (App.view s) = Some c ->
     let s' := App.handle App.ClickPrevious (App.handle App.ClickNext s) in
     App.currentTrack (App.view s') = Some c).
Proof.
  split.
  - intros s i c Hi Hx Hc s'.
    assert (i < List.length (Player.audioFiles (Player.view s)))%nat as Hlt
        by (apply nth_error_Some; congruence).
    assert (Player.audioFiles (Player.view s) <> []) as Hne
        by (intros E; rewrite E in Hlt; simpl in Hlt; lia).
    pose proof (len_pos _ Hne) as Hpos.
    assert (Player.currentIndex (Player.view s)
            = Z.of_nat i mod len (Player.audioFiles (Player.view s))) as Hm
        by (rewrite Z.mod_small; unfold len; lia).
    assert (Player.currentTrack (Player.view s) <> None) as Hsome by congruence.
    destruct (player_click_next s (Z.of_nat i) Hne Hsome Hm)
      as (Hf & H1 & H2 & _).
    set (s1 := Player.handle Player.ClickNext s) in *.
    destruct (item_mod (Player.audioFiles (Player.view s)) (Z.of_nat i + 1) Hne)
      as [t Et].
    assert (Player.view s'
            = Player.view (Player.playPrevious (Player.view s1) s1)) as Hv.
    { unfold s', Player.handle. rewrite player_view_commit. simpl.
      unfold Player.controls. now rewrite H2, Et. }
    rewrite Hv. unfold Player.playPrevious. rewrite Hf, H1.
    destruct (Z.eqb_spec (len (Player.audioFiles (Player.view s))) 0); [lia|].
    simpl.
    assert ((if (Z.of_nat i + 1) mod len (Player.audioFiles (Player.view s)) =? 0
             then len (Player.audioFiles (Player.view s)) - 1
             else (Z.of_nat i + 1) mod len (Player.audioFiles (Player.view s)) - 1)
            = Z.of_nat i) as R.
    { unfold len in *.
      destruct (Z.eq_dec (Z.of_nat i + 1)
                  (Z.of_nat (List.length (Player.audioFiles (Player.view s)))))
        as [E|E].
      - rewrite E, Z.mod_same by lia. simpl. lia.
      - rewrite Z.mod_small by lia.
        destruct (Z.eqb_spec (Z.of_nat i + 1) 0); lia. }
    rewrite R. split; [reflexivity | rewrite item_of_nat; exact Hi].
  - intros s i c Hnd Hi Hc s'.
    assert (i < List.length (App.tracks (App.view s)))%nat as Hlt
        by (apply nth_error_Some; congruence).
    assert (App.tracks (App.view s) <> []) as Hne
        by (intros E; rewrite E in Hlt; simpl in Hlt; lia).
    pose proof (len_pos _ Hne) as Hpos.
    destruct (app_click_next s i c Hnd Hi Hc) as (Hf & H1).
    set (s1 := App.handle App.ClickNext s) in *.
    set (j := (Z.of_nat i + 1) mod len (App.tracks (App.view s))) in *.
    assert (0 <= j < len (App.tracks (App.view s))) as Hj
        by (apply Z.mod_pos_bound; lia).
    destruct (item_in_range (App.tracks (App.view s)) j Hj) as [t Et].
    assert (nth_error (App.tracks (App.view s)) (Z.to_nat j) = Some t) as Hnth.
    { rewrite <- item_of_nat, Z2Nat.id by lia. exact Et. }
    assert (App.view s'
            = App.view (App.handlePrevious (App.view s1) s1)) as Hv.
    { unfold s', App.handle. rewrite app_view_commit. simpl.
      unfold App.skipEnabled, App.controls. rewrite H1, Et, Hf.
      destruct (Z.eqb_spec (len (App.tracks (App.view s))) 0); [lia|].
      reflexivity. }
    rewrite Hv. unfold App.handlePrevious. rewrite H1, Et. unfold App.indexOfCurrent.
    rewrite Hf.
    rewrite (findIndex_key App.Track.id _ (App.tracks (App.view s))
               (Z.to_nat j) t) by auto.
    rewrite Z2Nat.id by lia.
    assert ((if j >? 0 then j - 1 else len (App.tracks (App.view s)) - 1)
            = Z.of_nat i) as R.
    { unfold j, len in *.
      destruct (Z.eq_dec (Z.of_nat i + 1)
                  (Z.of_nat (List.length (App.tracks (App.view s))))) as [E|E].
      - rewrite E, Z.mod_same by lia. simpl. lia.
      - rewrite Z.mod_small by lia.
        destruct (Z.gtb_spec (Z.of_nat i + 1) 0); lia. }
    rewrite R, item_of_nat, Hi.
    rewrite app_currentTrack_handlePlay.
    destruct (same App.Track.eq_dec (Some c) (App.currentTrack (App.view s1)))
      eqn:E; auto.
    apply same_true in E. congruence.
Qed.

Lemma previous_undoes_next_witness :
  Player.currentTrack
    (Player.view (Player.handle Player.ClickPrevious
                    (Player.handle Player.ClickNext player_on_B)))
    = Some fileB /\
  App.currentTrack
    (App.view (App.handle App.ClickPrevious
                 (App.handle App.ClickNext app_on_B))) = Some appB.
Proof.
  destruct previous_undoes_next as [Hplayer Happ].
  split.
  - assert (nth_error (Player.audioFiles (Player.view player_on_B)) 1
            = Some fileB) as H1 by (vm_compute; reflexivity).
    assert (Player.currentIndex (Player.view player_on_B) = Z.of_nat 1)
      as H2 by (vm_compute; reflexivity).
    assert (Player.currentTrack (Player.view player_on_B) = Some fileB)
      as H3 by (vm_compute; reflexivity).
    exact (proj2 (Hplayer player_on_B 1%nat fileB H1 H2 H3)).
  - assert (App.tracks (App.view app_on_B) = [appA; appB])
      as H0 by (vm_compute; reflexivity).
    assert (nth_error (App.tracks (App.view app_on_B)) 1 = Some appB)
      as H1 by (vm_compute; reflexivity).
    assert (App.currentTrack (App.view app_on_B) = Some appB)
      as H3 by (vm_compute; reflexivity).
    refine (Happ app_on_B 1%nat appB _ H1 H3).
    rewrite H0. repeat constructor; simpl; intuition discriminate.
Defined.

(** In [App] the next button goes through [handlePlay], which toggles:
    with the current track in a list of distinct ids and another track
    after it, a click on next selects and loads that track and flips
    [isPlaying]; the element is left paused exactly when the session was
    playing.  The [ended] notification does the same when the listeners
    are those of the latest render. *)
Theorem app_next_toggles_playback :
  forall (s : App.Session) (i : nat) (c t : App.Track.t),
    NoDup (map App.Track.id (App.tracks (App.view s))) ->
    nth_error (App.tracks (App.view s)) i = Some c ->
    App.currentTrack (App.view s) = Some c ->
    item (App.tracks (App.view s))
         ((Z.of_nat i + 1) mod len (App.tracks (App.view s))) = Some t ->
    t <> c ->
    let s' := App.handle App.ClickNext s in
    App.currentTrack (App.view s') = Some t /\
    App.isPlaying (App.view s') = negb (App.isPlaying (App.view s)) /\
    Audio.src (App.audio s') = Some (App.Track.url t) /\
    Audio.currentTime (App.audio s') = 0%Q /\
    Audio.paused (App.audio s') = App.isPlaying (App.view s) /\
    (App.bound s = App.view s -> App.handle App.Ended s = s').
Proof.
  intros s i c t Hnd Hi Hc Ht Hne s'.
  assert (i < List.length (App.tracks (App.view s)))%nat as Hlt
      by (apply nth_error_Some; congruence).
  assert (App.tracks (App.view s) <> []) as Hnil
      by (intros E; rewrite E in Hlt; simpl in Hlt; lia).
  pose proof (len_pos _ Hnil) as Hpos.
  assert (App.dispatch App.ClickNext s
          = App.handlePlay (App.view s) (Some t) s) as Hd.
  { simpl. unfold App.skipEnabled, App.controls. rewrite Hc.
    destruct (Z.eqb_spec (len (App.tracks (App.view s))) 0); [lia|]. simpl.
    unfold App.handleNext. rewrite Hc. unfold App.indexOfCurrent.
    rewrite (findIndex_key App.Track.id _ (App.tracks (App.view s)) i c) by auto.
    assert ((if Z.of_nat i <? len (App.tracks (App.view s)) - 1
             then Z.of_nat i + 1 else 0)
            = (Z.of_nat i + 1) mod len (App.tracks (App.view s))) as R.
    { unfold len in *.
      destruct (Z.ltb_spec (Z.of_nat i)
                  (Z.of_nat (List.length (App.tracks (App.view s))) - 1)).
      - rewrite Z.mod_small; lia.
      - replace (Z.of_nat i + 1)
          with (Z.of_nat (List.length (App.tracks (App.view s)))) by lia.
        now rewrite Z.mod_same by lia. }
    rewrite R, Ht. reflexivity. }
  assert (same App.Track.eq_dec (Some t) (App.currentTrack (App.view s)) = false)
    as Hdiff.
  { rewrite Hc. simpl. destruct (App.Track.eq_dec t c); congruence. }
  assert (App.skipEnabled (App.view s) = true) as Hskip.
  { unfold App.skipEnabled, App.controls. rewrite Hc.
    destruct (Z.eqb_spec (len (App.tracks (App.view s))) 0); [lia|].
    reflexivity. }
  assert (App.bound s = App.view s -> App.handle App.Ended s = s') as Hended.
  { intros B. unfold s', App.handle. simpl. unfold App.handleEnded.
    now rewrite B, Hskip. }
  enough (App.currentTrack (App.view s') = Some t /\
          App.isPlaying (App.view s') = negb (App.isPlaying (App.view s)) /\
          Audio.src (App.audio s') = Some (App.Track.url t) /\
          Audio.currentTime (App.audio s') = 0%Q /\
          Audio.paused (App.audio s') = App.isPlaying (App.view s))
    as (A & B & C & D & E) by (repeat split; assumption).
  unfold s', App.handle. rewrite app_view_commit, app_audio_commit, Hd.
  unfold App.handlePlay. rewrite Hdiff.
  destruct (App.isPlaying (App.view s)) eqn:P; simpl; repeat split; auto.
Qed.

Lemma app_next_toggles_playback_witness :
  App.isPlaying (App.view (App.handle App.ClickNext app_on_B)) = false /\
  Audio.paused (App.audio (App.handle App.ClickNext app_on_B)) = true.
Proof.
  assert (App.tracks (App.view app_on_B) = [appA; appB])
    as H0 by (vm_compute; reflexivity).
  assert (nth_error (App.tracks (App.view app_on_B)) 1 = Some appB)
    as H1 by (vm_compute; reflexivity).
  assert (App.currentTrack (App.view app_on_B) = Some appB)
    as H2 by (vm_compute; reflexivity).
  assert (item (App.tracks (App.view app_on_B))
               ((Z.of_nat 1 + 1) mod len (App.tracks (App.view app_on_B)))
          = Some appA) as H3 by (vm_compute; reflexivity).
  assert (NoDup (map App.Track.id (App.tracks (App.view app_on_B)))) as Hnd.
  { rewrite H0. repeat constructor; simpl; intuition discriminate. }
  assert (appA <> appB) as Hne by discriminate.
  destruct (app_next_toggles_playback app_on_B 1%nat appB appA Hnd H1 H2 H3 Hne)
    as (_ & Hp & _ & _ & Hpaused & _).
  split.
  - rewrite Hp. vm_compute. reflexivity.
  - rewrite Hpaused. vm_compute. reflexivity.
Defined.

(** ** [PlaylistManager]: the store and the object URLs *)


Lemma manager_accept_fold files : forall acc u,
  let accepted := filter (fun p => isAudio (fst p)) files in
  let res := fst (fold_left Manager.accept files (acc, u)) in
  map Manager.Track.id res = map Manager.Track.id acc ++ map snd accepted /\
  map Manager.Track.name res
  = map Manager.Track.name acc
    ++ map (fun p => replace_extension (file_name (fst p))) accepted /\
  List.length res = (List.length acc + List.length accepted)%nat.
Proof.
  induction files as [|[f stamp] files IH]; intros acc u; simpl.
  - rewrite !app_nil_r. repeat split; lia.
  - destruct (isAudio f) eqn:E; simpl.
    + destruct (IH (acc ++ [{| Manager.Track.id := stamp;
                               Manager.Track.name := replace_extension (file_name f);
                               Manager.Track.file := f;
                               Manager.Track.url := ObjectUrl (URL.minted u);
                               Manager.Track.duration := None;
                               Manager.Track.size := file_size f |}])
                  {| URL.minted := S (URL.minted u);
                     URL.live := (URL.minted u, f) :: URL.live u |})
        as (H1 & H2 & H3).
      rewrite H1, H2, H3, !map_app, <- !app_assoc, length_app. simpl.
      repeat split; lia.
    + apply IH.
Qed.

(** [handleFileUpload] of [PlaylistManager]: the files whose type starts
    with [audio/] are appended in their order, under a name without the
    extension and the id made for them, whatever other files the batch
    holds, and a save of the new list is started: nothing is written yet,
    the key holds the new list once the readers of that save have
    delivered and [setItem] accepts the text, and keeps its value when
    [setItem] throws.  A batch with no such file changes neither the list
    nor the store and starts no save. *)
Theorem manager_upload_appends_the_audio_files :
  forall (files : list (File * string)) (s : Manager.Session),
    let accepted := filter (fun p => isAudio (fst p)) files in
    let s' := Manager.handleFileUpload (Manager.view s) files s in
    let k := List.length (Manager.saves s) in
    Manager.storage s' = Manager.storage s /\
    (accepted = [] ->
       Manager.view s' = Manager.view s /\
       Manager.saves s' = Manager.saves s) /\
    (accepted <> [] ->
       map Manager.Track.id (Manager.tracks (Manager.view s'))
       = map Manager.Track.id (Manager.tracks (Manager.view s))
         ++ map snd accepted /\
       map Manager.Track.name (Manager.tracks (Manager.view s'))
       = map Manager.Track.name (Manager.tracks (Manager.view s))
         ++ map (fun p => replace_extension (file_name (fst p))) accepted /\
       Manager.saves s'
       = Manager.saves s ++ [Manager.tracks (Manager.view s')] /\
       Manager.storage (Manager.saveTracksToStorage_resume k true s')
       = Some (map Manager.entry (Manager.tracks (Manager.view s'))) /\
       Manager.storage (Manager.saveTracksToStorage_resume k false s')
       = Manager.storage s).
Proof.
  intros files s accepted s' k. unfold s', Manager.handleFileUpload.
  destruct (manager_accept_fold files [] (Manager.urls s)) as (H1 & H2 & H3).
  destruct (fold_left Manager.accept files ([], Manager.urls s))
    as [newTracks u]. simpl in H1, H2, H3.
  subst accepted.
  destruct (filter (fun p => isAudio (fst p)) files) as [|p rest].
  - simpl in H3. destruct newTracks; [|discriminate]. simpl.
    split; [reflexivity|]. split; [auto|]. intros F. congruence.
  - assert ((0 <? len newTracks) = true) as Hpos.
    { apply Z.ltb_lt. unfold len. rewrite H3. simpl. lia. }
    rewrite Hpos.
    set (updated := Manager.tracks (Manager.view s) ++ newTracks).
    set (s0 := Manager.setTracks updated
                 (Manager.onUrls (fun _ => u) s)).
    assert (k = List.length (Manager.saves s0)) as Hk by reflexivity.
    rewrite !(manager_resume_started updated _ s0 k Hk).
    simpl. split; [reflexivity|]. split; [discriminate|].
    intros _. unfold updated. rewrite !map_app, H1, H2. repeat split.
Qed.

Lemma manager_upload_appends_the_audio_files_witness :
  map Manager.Track.name
    (Manager.tracks
       (Manager.view
          (Manager.handleFileUpload (Manager.view (manager_playing trackA))
             [(song, "t1"); (notes, "t2"); (tune, "t3")]
             (manager_playing trackA))))
  = ["A"; "B"] ++ ["song"; "tune"].
Proof.
  refine (proj1 (proj2 (proj2 (proj2 (manager_upload_appends_the_audio_files
            [(song, "t1"); (notes, "t2"); (tune, "t3")]
            (manager_playing trackA))) _))).
  discriminate.
Defined.

Lemma resolve_fresh h u :
  (forall k f, In (k, f) (URL.live u) -> k <> h) -> URL.resolve h u = None.
Proof.
  unfold URL.resolve. intros H.
  destruct (find (fun e => Nat.eqb (fst e) h) (URL.live u)) as [[k f]|] eqn:E;
    auto.
  apply find_some in E as [Hin Hk]. simpl in Hk.
  apply Nat.eqb_eq in Hk. exfalso. exact (H k f Hin Hk).
Qed.

(** One turn of the restoring loop, started in a page whose live URLs were
    all minted at or after [m0]. *)
Lemma manager_restore_skips (m0 : nat) stored : forall acc u,
  (m0 <= URL.minted u)%nat ->
  (forall k f, In (k, f) (URL.live u) -> (m0 <= k)%nat) ->
  (forall e h, In e stored -> Manager.Stored.url e = ObjectUrl h -> (h < m0)%nat) ->
  map Manager.Track.id (fst (fold_left Manager.restore stored (acc, u)))
  = map Manager.Track.id acc
    ++ map Manager.Stored.id
         (filter (fun e => match Manager.Stored.url e with
                           | DataUrl _ _ => true
                           | ObjectUrl _ => false
                           end) stored).
Proof.
  induction stored as [|e stored IH]; intros acc u Hm Hlive Hold; simpl.
  - now rewrite app_nil_r.
  - destruct (Manager.Stored.url e) as [h|mime body] eqn:E; simpl.
    + rewrite resolve_fresh; simpl.
      * apply IH; auto. intros e' h' Hin. apply Hold. now right.
      * intros k f Hin. specialize (Hlive k f Hin).
        specialize (Hold e h (or_introl eq_refl) E). lia.
    + rewrite IH; simpl.
      * rewrite map_app, <- app_assoc. reflexivity.
      * lia.
      * intros k f [H|H]; [injection H as <- _; lia | eauto].
      * intros e' h' Hin. apply Hold. now right.
Qed.

(** Loading skips what cannot be fetched and keeps the rest, in order: of
    a stored list whose object URLs all come from earlier pages, the next
    page load restores exactly the entries that carry a data URL. *)
Theorem manager_load_skips_dead_urls :
  forall (s : Manager.Session) (stored : list Manager.Stored.t),
    Manager.storage s = Some stored ->
    (forall e h, In e stored -> Manager.Stored.url e = ObjectUrl h ->
                 (h < URL.minted (Manager.urls s))%nat) ->
    map Manager.Track.id (Manager.tracks (Manager.view (Manager.reload s)))
    = map Manager.Stored.id
        (filter (fun e => match Manager.Stored.url e with
                          | DataUrl _ _ => true
                          | ObjectUrl _ => false
                          end) stored).
Proof.
  intros s stored Hs Hold.
  unfold Manager.reload, Manager.loadTracksFromStorage. simpl. rewrite Hs.
  match goal with
  | |- context [fold_left Manager.restore stored (?a, ?u)] =>
      pose proof (manager_restore_skips (URL.minted (Manager.urls s))
                    stored a u) as R;
      destruct (fold_left Manager.restore stored (a, u)) as [res u']
  end.
  simpl in *. apply R; auto. intros k f [].
Qed.

Lemma manager_load_skips_dead_urls_witness :
  map Manager.Track.id
    (Manager.tracks
       (Manager.view
          (Manager.reload
             {| Manager.view := Manager.initial;
                Manager.storage := Some [fromApp; Manager.entry trackB];
                Manager.urls := {| URL.minted := 2; URL.live := [] |};
                Manager.saves := [] |})))
  = ["b"].
Proof.
  refine (manager_load_skips_dead_urls
            {| Manager.view := Manager.initial;
               Manager.storage := Some [fromApp; Manager.entry trackB];
               Manager.urls := {| URL.minted := 2; URL.live := [] |};
               Manager.saves := [] |}
            [fromApp; Manager.entry trackB] eq_refl _).
  intros e h [<-|[<-|[]]] H; [injection H as <-; simpl; lia | discriminate H].
Defined.









(** Before the deletion the URL could be fetched. *)
Example manager_url_was_live :
  fetch (Manager.Track.url trackA) (Manager.urls (manager_playing trackA))
  <> None.
Proof. discriminate. Qed.

(** Every type [validateAudioFile] lists passes the test of the upload
    handlers. *)
Theorem listed_types_pass_the_upload_test (file : File) :
  Utils.includes Utils.validTypes (file_type file) = true ->
  isAudio file = true.
Proof.
  unfold Utils.includes, Utils.validTypes, isAudio. simpl.
  intros H.
  repeat (apply orb_true_iff in H as [H|H];
          [apply String.eqb_eq in H; rewrite H; reflexivity|]).
  discriminate.
Qed.

Lemma listed_types_pass_the_upload_test_witness : isAudio song = true.
Proof. apply listed_types_pass_the_upload_test. reflexivity. Defined.

(** The two tests differ both ways: [validateAudioFile] goes by the name
    where the type says nothing, the handlers by the type alone. *)
Example validateAudioFile_and_the_handlers_differ :
  let untyped := {| file_name := "SONG.MP3"; file_type := ""; file_bytes := [] |} in
  let flac := {| file_name := "song.flac"; file_type := "audio/flac";
                 file_bytes := [] |} in
  Utils.validateAudioFile untyped = true /\ isAudio untyped = false /\
  Utils.validateAudioFile flac = false /\ isAudio flac = true.
Proof. repeat split. Qed.

(** ** [formatTime] *)

Lemma Qfloor_unique (x : Q) (z : Z) :
  (inject_Z z <= x)%Q -> (x < inject_Z (z + 1))%Q -> Qfloor x = z.
Proof.
  intros Hlo Hhi.
  pose proof (Qfloor_le x) as H1. pose proof (Qlt_floor x) as H2.
  assert (inject_Z z < inject_Z (Qfloor x + 1))%Q as A by lra.
  assert (inject_Z (Qfloor x) < inject_Z (z + 1))%Q as B by lra.
  rewrite <- Zlt_Qlt in A, B. lia.
Qed.

Lemma two_digits (s : Z) :
  0 <= s < 60 ->
  Utils.padStart2 (Utils.decimal s)
  = (Utils.decimal (s / 10) ++ Utils.decimal (s mod 10))%string.
Proof.
  intros H. rewrite <- (Z2Nat.id s) by lia.
  assert (Z.to_nat s < 60)%nat as Hn by lia.
  revert Hn. generalize (Z.to_nat s). intros n Hn.
  do 60 (destruct n as [|n]; [reflexivity|]). lia.
Qed.

(** For a time that is not negative and below [2^53] seconds (the range
    in which the quotient of the doubles has the whole part of the exact
    one), [formatTime] writes the whole minutes, a colon, and the
    remaining whole seconds (fewer than 60) with exactly two digits. *)
Theorem formatTime_is_minutes_and_two_digits (seconds : Q) :
  (0 <= seconds)%Q -> (seconds < inject_Z (2 ^ 53))%Q ->
  exists m s : Z,
    0 <= m < 2 ^ 53 /\ 0 <= s < 60 /\
    Qfloor seconds = 60 * m + s /\
    Utils.formatTime seconds
    = (Utils.decimal m ++ ":" ++ Utils.decimal (s / 10)
                       ++ Utils.decimal (s mod 10))%string.
Proof.
  intros H0 Hbig.
  set (q := (seconds / 60)%Q).
  set (m := Qfloor q).
  pose proof (Qfloor_le q) as Hm1. pose proof (Qlt_floor q) as Hm2.
  fold m in Hm1, Hm2.
  assert (seconds == 60 * q)%Q as Hq by (unfold q; field).
  assert (0 <= q)%Q as Hq0 by (unfold q; apply Qle_shift_div_l; lra).
  assert (0 <= m) as Hm0.
  { unfold m. change 0 with (Qfloor 0). now apply Qfloor_resp_le. }
  assert (Z.quot (Qnum q) (Zpos (Qden q)) = m) as Hquot.
  { unfold m, Qfloor. destruct q as [n d]. simpl.
    apply Z.quot_div_nonneg; [|lia].
    unfold Qle in Hq0. simpl in Hq0. lia. }
  rewrite inject_Z_plus in Hm2.
  assert (inject_Z (60 * m) <= seconds)%Q as Hlo.
  { rewrite inject_Z_mult. change (inject_Z 60) with 60%Q. lra. }
  assert (seconds < inject_Z (60 * m + 60))%Q as Hhi.
  { rewrite inject_Z_plus, inject_Z_mult.
    change (inject_Z 60) with 60%Q. change (inject_Z 1) with 1%Q in Hm2. lra. }
  set (s := Qfloor seconds - 60 * m).
  assert (0 <= s < 60) as Hs.
  { unfold s. split.
    - assert (60 * m <= Qfloor seconds); [|lia].
      rewrite <- (Qfloor_Z (60 * m)). now apply Qfloor_resp_le.
    - pose proof (Qfloor_le seconds) as F.
      assert (inject_Z (Qfloor seconds) < inject_Z (60 * m + 60))%Q as G by lra.
      rewrite <- Zlt_Qlt in G. lia. }
  assert (m < 2 ^ 53) as Hm21.
  { assert (inject_Z (60 * m) < inject_Z (2 ^ 53))%Q as G by lra.
    rewrite <- Zlt_Qlt in G. lia. }
  exists m, s. repeat split; try lia.
  unfold Utils.formatTime. fold q. rewrite Hquot. fold m.
  assert (Qfloor (seconds - 60 * inject_Z m) = s) as Hrest.
  { apply Qfloor_unique.
    - pose proof (Qfloor_le seconds) as F. unfold s.
      unfold Zminus. rewrite inject_Z_plus, inject_Z_opp, inject_Z_mult.
      change (inject_Z 60) with 60%Q. lra.
    - pose proof (Qlt_floor seconds) as F. unfold s.
      replace (Qfloor seconds - 60 * m + 1)
        with ((Qfloor seconds + 1) + - (60 * m)) by lia.
      rewrite inject_Z_plus, inject_Z_opp, inject_Z_mult.
      change (inject_Z 60) with 60%Q. lra. }
  rewrite Hrest, two_digits by exact Hs. reflexivity.
Qed.

Lemma formatTime_is_minutes_and_two_digits_witness :
  exists m s : Z,
    0 <= m < 2 ^ 53 /\ 0 <= s < 60 /\
    Qfloor (7325 # 2) = 60 * m + s /\
    Utils.formatTime (7325 # 2)
    = (Utils.decimal m ++ ":" ++ Utils.decimal (s / 10)
                       ++ Utils.decimal (s mod 10))%string.
Proof.
  apply formatTime_is_minutes_and_two_digits; vm_compute;
    [discriminate | reflexivity].
Defined.

Example formatTime_examples :
  Utils.formatTime 0 = "0:00" /\ Utils.formatTime 65 = "1:05" /\
  Utils.formatTime (7325 # 2) = "61:02" /\
  Utils.formatTime (-1 # 2) = "-1:-1".
Proof. repeat split. Qed.
